(** * Locality load balancing (pilot/pkg/networking/core/v1alpha3/loadbalancer)

    A shallow embedding of [loadbalancer.go] and the properties of its
    three entry points: [GetLocalityLbSetting], [ApplyLocalityLBSetting]
    and the two unexported workers [applyLocalityWeight] and
    [applyLocalityFailover].

    Conventions.
    - Go's [uint32] is a [Z] reduced modulo [2^32] at every arithmetic
      operation ([uint32]); Go's [int] loop counters are [Z].
    - A Go pointer that the code tests against [nil] is an [option].
    - Go maps are stdpp finite maps and sets: [misMatched] is a [gset nat],
      [destLocMap] a [gmap nat Z], [priorityMap] a [gmap Z (list nat)].
      A [range] over one of these visits the keys in some order the Go
      runtime picks; the embedding visits them in the order of stdpp's
      [elements] / [map_to_list].  The rule's [To] map is ranged over in
      the outer loop, whose order is observable; it is therefore kept as
      the list of its entries in the order in which the runtime
      enumerates them.
    - The load assignment is mutated in place by the Go code; here it is
      threaded through every loop as an explicit value. *)

From stdpp Require Import gmap strings list fin_maps sorting.

Local Open Scope Z_scope.

(** ** Data model *)

Module core.
(** [core.Locality] of the Envoy API. *)
Record Locality := mkLocality {
  Region : string;
  Zone : string;
  SubZone : string
}.
End core.

Module endpoint.
(** The members of a group are opaque to this package, an address stands
    for each. *)
Definition LbEndpoint : Type := string.

(** [endpoint.LocalityLbEndpoints]: one group of endpoints per locality.
    [LoadBalancingWeight] is a [*wrappers.UInt32Value], [Priority] a
    [uint32]. *)
Record LocalityLbEndpoints := mkGroup {
  Locality : option core.Locality;
  LbEndpoints : list LbEndpoint;
  LoadBalancingWeight : option Z;
  Priority : Z
}.

Definition setWeight (v : Z) (ep : LocalityLbEndpoints) : LocalityLbEndpoints :=
  {| Locality := Locality ep; LbEndpoints := LbEndpoints ep;
     LoadBalancingWeight := Some v; Priority := Priority ep |}.

Definition setPriority (p : Z) (ep : LocalityLbEndpoints) : LocalityLbEndpoints :=
  {| Locality := Locality ep; LbEndpoints := LbEndpoints ep;
     LoadBalancingWeight := LoadBalancingWeight ep; Priority := p |}.

Definition clearLbEndpoints (ep : LocalityLbEndpoints) : LocalityLbEndpoints :=
  {| Locality := Locality ep; LbEndpoints := [];
     LoadBalancingWeight := LoadBalancingWeight ep; Priority := Priority ep |}.
End endpoint.

Module apiv2.
Record ClusterLoadAssignment := mkAssignment {
  ClusterName : string;
  Endpoints : list endpoint.LocalityLbEndpoints
}.

Definition setEndpoints (eps : list endpoint.LocalityLbEndpoints)
    (la : ClusterLoadAssignment) : ClusterLoadAssignment :=
  {| ClusterName := ClusterName la; Endpoints := eps |}.
End apiv2.

Module v1alpha3.
Module Distribute.
(** [LocalityLoadBalancerSetting_Distribute].  [To] is a
    [map[string]uint32]; the list holds its entries in the order in which
    the runtime enumerates them. *)
Record t := mk { From : string; To : list (string * Z) }.
End Distribute.

Module Failover.
(** [LocalityLoadBalancerSetting_Failover].  The elements of the slice
    are dereferenced without a nil test, so they are taken to be
    present. *)
Record t := mk { From : string; To : string }.
End Failover.

(** [LocalityLoadBalancerSetting].  [Distribute] is a slice of pointers
    that the code compares with [nil], as a whole and element by
    element; [Failover] is only ranged over, where a nil slice and an
    empty one behave alike; [Enabled] is a [*types.BoolValue]. *)
Record LocalityLoadBalancerSetting := mkSetting {
  Distribute : option (list (option Distribute.t));
  Failover : list Failover.t;
  Enabled : option bool
}.

(** The generated getters accept a nil receiver. *)
Definition GetDistribute (s : option LocalityLoadBalancerSetting)
    : option (list (option Distribute.t)) :=
  match s with Some x => Distribute x | None => None end.

Definition GetFailover (s : option LocalityLoadBalancerSetting)
    : list Failover.t :=
  match s with Some x => Failover x | None => [] end.
End v1alpha3.

Import core endpoint apiv2.

(** ** Machine arithmetic *)

Definition uint32 (z : Z) : Z := z `mod` 2 ^ 32.

(** The only floating-point expression of the package is
    [float64(a) / float64(b)] with [a] and [b] of type [uint32], followed
    by a comparison with [0] and by [math.Ceil].  Both operands are exact
    in binary64.  For [b = 0] IEEE division gives NaN ([a = 0]) or +Inf
    ([a > 0]); no fault is raised.  For [b > 0] the rounded quotient is
    positive exactly when [a > 0] (a positive quotient is at least
    [2^-32], far from underflow).  Rounding is monotone and every integer
    below [2^53] is a binary64 number, so with [q <= a / b <= q + 1] the
    rounded quotient lies between [q] and [q + 1] as well; and when
    [a / b] is not an integer its distance to [q] and to [q + 1] is at
    least [1 / b], which is above [2^-32] and, by [q * b <= a], above
    [q * 2^-32], hence above the rounding error of at most
    [(q + 1) * 2^-53]: the rounded quotient is not an integer either.
    The comparison with zero and the ceiling therefore agree with those
    of the exact quotient, which [Quot a b] stands for. *)
Inductive float64 :=
  | NaN
  | PosInf
  | Quot (num den : Z).

Definition fdiv (a b : Z) : float64 :=
  if decide (b = 0) then (if decide (a = 0) then NaN else PosInf)
  else Quot a b.

(** [x > 0] *)
Definition fgt0 (x : float64) : bool :=
  match x with
  | NaN => false
  | PosInf => true
  | Quot n d => bool_decide (0 < n)
  end.

(** [math.Ceil] *)
Definition Ceil (x : float64) : float64 :=
  match x with
  | Quot n d => Quot ((n + d - 1) `div` d) 1
  | _ => x
  end.

(** ** The helpers of package [util] *)

Fixpoint splitOn (sep : Ascii.ascii) (s : string) : list string :=
  match s with
  | EmptyString => [EmptyString]
  | String c rest =>
      if Ascii.eqb c sep then EmptyString :: splitOn sep rest
      else match splitOn sep rest with
           | h :: t => String c h :: t
           | [] => [String c EmptyString]
           end
  end.

Definition GetRegion (l : option core.Locality) : string :=
  match l with Some x => Region x | None => EmptyString end.
Definition GetZone (l : option core.Locality) : string :=
  match l with Some x => Zone x | None => EmptyString end.
Definition GetSubZone (l : option core.Locality) : string :=
  match l with Some x => SubZone x | None => EmptyString end.

(** Modelled from the spec: [util.LocalityMatch] is not part of this
    package.  A pattern is a locality whose components are separated by
    a slash; trailing components may be missing or empty, which means
    any; the region must be equal, then the zone if the pattern has one,
    then the sub-zone; the empty pattern matches everything. *)
Definition specLocalityMatch (l : option core.Locality) (pattern : string)
    : bool :=
  let parts := splitOn (Ascii.ascii_of_nat 47) pattern in
  let component (have want : string) : bool :=
    bool_decide (want = EmptyString) || bool_decide (have = want) in
  component (GetRegion l) (default EmptyString (parts !! 0%nat))
  && component (GetZone l) (default EmptyString (parts !! 1%nat))
  && component (GetSubZone l) (default EmptyString (parts !! 2%nat)).

(** Modelled from the spec: [util.LbPriority] is not part of this
    package.  Tier 0: region, zone and sub-zone all equal; tier 1: region
    and zone equal; tier 2: region equal; tier 3: region differs. *)
Definition specLbPriority (proxy ep : option core.Locality) : Z :=
  if decide (GetRegion proxy = GetRegion ep) then
    if decide (GetZone proxy = GetZone ep) then
      if decide (GetSubZone proxy = GetSubZone ep) then 0 else 1
    else 2
  else 3.

(** One of the conversions of a NaN or an infinity to [uint32] that Go
    allows: the result is 0. *)
Definition nonfinite_zero (x : float64) : Z := 0.

(** ** Sample inputs *)

Module sample.
Definition group (region zone : string) (weight : option Z)
    : LocalityLbEndpoints :=
  mkGroup (Some (mkLocality region zone EmptyString))
          ["10.0.0.1"%string; "10.0.0.2"%string] weight 0.

(** The caller. *)
Definition proxy : core.Locality := mkLocality "us-east" "a" "".

(** Five groups: the caller's zone, another zone of its region, two
    other regions, and a group without locality. *)
Definition regions : ClusterLoadAssignment :=
  mkAssignment "outbound|80||svc"
    [group "us-east" "a" None; group "us-east" "b" (Some 3);
     group "us-west" "a" None; group "eu-central" "a" (Some 2);
     mkGroup None ["10.0.0.9"%string] None 0].

Definition toWest : list v1alpha3.Failover.t :=
  [v1alpha3.Failover.mk "eu-central" "us-east";
   v1alpha3.Failover.mk "us-east" "us-west";
   v1alpha3.Failover.mk "us-east" "eu-central"].

(** Two zones of one region. *)
Definition zones : ClusterLoadAssignment :=
  mkAssignment "outbound|80||svc"
    [group "us-east" "a" None; group "us-east" "b" None].

(** A rule whose patterns overlap: the first one matches both groups
    of [zones], the second one only the first group. *)
Definition overlapping : list (string * Z) :=
  [("us-east"%string, 10); ("us-east/a"%string, 90)].

(** Rules of which the second and the third match the caller. *)
Definition rules : list (option v1alpha3.Distribute.t) :=
  [None;
   Some (v1alpha3.Distribute.mk "us-west" [("us-west"%string, 100)]);
   Some (v1alpha3.Distribute.mk "us-east/a"
           [("us-east/a"%string, 80); ("us-west"%string, 20)]);
   Some (v1alpha3.Distribute.mk "us-east" [("eu-central"%string, 100)])].

(** A group whose weight times the rule's weight does not fit in 32
    bits. *)
Definition heavy : ClusterLoadAssignment :=
  mkAssignment "outbound|80||svc" [group "us-east" "a" (Some 65536)].

(** Groups of weight 0. *)
Definition weightless : list LocalityLbEndpoints :=
  [group "us-east" "a" (Some 0); group "us-east" "b" (Some 0);
   group "us-west" "a" (Some 5)].
End sample.

(** ** Package [loadbalancer] *)

Section loadbalancer.

(** [util.LocalityMatch] and [util.LbPriority] belong to another
    package; the functions below are stated for any such pair. *)
Variable LocalityMatch : option core.Locality → string → bool.
Variable LbPriority : option core.Locality → option core.Locality → Z.

(** Go leaves the conversion of a NaN or an infinity to an integer
    type to the implementation. *)
Variable uint32_of_nonfinite : float64 → Z.

(** [uint32(x)] for a float [x]: truncation toward zero. *)
Definition uint32_of_float (x : float64) : Z :=
  match x with
  | Quot n d => uint32 (n `quot` d)
  | _ => uint32_of_nonfinite x
  end.

(** *** GetLocalityLbSetting *)

Definition GetLocalityLbSetting
    (mesh destrule : option v1alpha3.LocalityLoadBalancerSetting)
    : option v1alpha3.LocalityLoadBalancerSetting :=
  let enabled := bool_decide (mesh ≠ None) in
  let enabled :=
    match destrule with
    | Some d =>
        match v1alpha3.Enabled d with
        | Some b => b
        | None => enabled
        end
    | None => enabled
    end in
  if negb enabled then None
  else match destrule with
       | Some d => Some d
       | None => mesh
       end.

(** *** applyLocalityWeight *)

(** The two unexported workers are only called from
    [ApplyLocalityLBSetting], after its nil tests: they take the caller's
    locality and the load assignment as values. *)

(** Lines 100-104: the weight a group has when it is claimed. *)
Definition originalWeight (ep : LocalityLbEndpoints) : Z :=
  match LoadBalancingWeight ep with
  | Some v => v
  | None => 1
  end.

(** Lines 96-108: the groups still in [misMatched] whose locality
    matches the [to] pattern are claimed: removed from [misMatched],
    recorded in [destLocMap] with their original weight, which is added
    to [totalWeight]. *)
Definition claimGroup (locality : string)
    (acc : gset nat * gmap nat Z * Z) (entry : nat * LocalityLbEndpoints)
    : gset nat * gmap nat Z * Z :=
  let '(misMatched, destLocMap, totalWeight) := acc in
  let '(i, ep) := entry in
  if decide (i ∈ misMatched) then
    if LocalityMatch (Locality ep) locality then
      let destLocMap := <[i := originalWeight ep]> destLocMap in
      (misMatched ∖ {[i]}, destLocMap,
       uint32 (totalWeight + default 0 (destLocMap !! i)))
    else acc
  else acc.

Definition claimGroups (locality : string) (misMatched : gset nat)
    (eps : list LocalityLbEndpoints) : gset nat * gmap nat Z * Z :=
  foldl (claimGroup locality) (misMatched, ∅, 0) (imap pair eps).

(** Lines 112-117, for one entry of [destLocMap]. *)
Definition assignWeight (weight totalWeight : Z) (entry : nat * Z)
    (eps : list LocalityLbEndpoints) : list LocalityLbEndpoints :=
  let '(index, originalWeight) := entry in
  let destWeight := fdiv (uint32 (originalWeight * weight)) totalWeight in
  if fgt0 destWeight then
    alter (setWeight (uint32_of_float (Ceil destWeight))) index eps
  else eps.

(** Lines 111-118. *)
Definition assignWeights (weight totalWeight : Z) (destLocMap : gmap nat Z)
    (eps : list LocalityLbEndpoints) : list LocalityLbEndpoints :=
  foldr (assignWeight weight totalWeight) eps (map_to_list destLocMap).

(** Lines 92-119, for one entry of the rule's [To] map. *)
Definition applyTo (st : gset nat * list LocalityLbEndpoints)
    (entry : string * Z) : gset nat * list LocalityLbEndpoints :=
  let '(locality, weight) := entry in
  let claimed := claimGroups locality (st.1) (st.2) in
  (claimed.1.1, assignWeights weight (claimed.2) (claimed.1.2) (st.2)).

(** Lines 122-124. *)
Definition clearMisMatched (misMatched : gset nat)
    (eps : list LocalityLbEndpoints) : list LocalityLbEndpoints :=
  foldr (alter clearLbEndpoints) eps (elements misMatched).

(** Lines 88-91: every index starts out in [misMatched]. *)
Definition allIndices (eps : list LocalityLbEndpoints) : gset nat :=
  list_to_set (seq 0 (length eps)).

(** Lines 88-124: the body run for the first matching rule. *)
Definition distributeTo (to : list (string * Z))
    (eps : list LocalityLbEndpoints) : list LocalityLbEndpoints :=
  let st := foldl applyTo (allIndices eps, eps) to in
  clearMisMatched (st.1) (st.2).

(** Lines 85-127: the scan for the first rule that is not nil and whose
    [From] matches, with its [break]. *)
Fixpoint firstMatch (locality : core.Locality)
    (distribute : list (option v1alpha3.Distribute.t))
    : option v1alpha3.Distribute.t :=
  match distribute with
  | [] => None
  | localityWeightSetting :: rest =>
      match localityWeightSetting with
      | Some s =>
          if LocalityMatch (Some locality) (v1alpha3.Distribute.From s)
          then Some s
          else firstMatch locality rest
      | None => firstMatch locality rest
      end
  end.

Definition applyLocalityWeight (locality : core.Locality)
    (loadAssignment : ClusterLoadAssignment)
    (distribute : option (list (option v1alpha3.Distribute.t)))
    : ClusterLoadAssignment :=
  match distribute with
  | None => loadAssignment
  | Some rules =>
      match firstMatch locality rules with
      | Some s =>
          setEndpoints
            (distributeTo (v1alpha3.Distribute.To s) (Endpoints loadAssignment))
            loadAssignment
      | None => loadAssignment
      end
  end.

(** *** applyLocalityFailover *)

(** Lines 148-155: the first failover setting whose [From] is the
    caller's region decides, later ones are not looked at. *)
Fixpoint scanFailover (locality : core.Locality)
    (epLocality : option core.Locality)
    (failover : list v1alpha3.Failover.t) (priority : Z) : Z :=
  match failover with
  | [] => priority
  | failoverSetting :: rest =>
      if decide (v1alpha3.Failover.From failoverSetting = Region locality)
      then
        match epLocality with
        | None => 4
        | Some l =>
            if decide (Region l ≠ v1alpha3.Failover.To failoverSetting)
            then 4 else priority
        end
      else scanFailover locality epLocality rest priority
  end.

(** Lines 144-156: the priority of one group before compaction. *)
Definition tier (locality : core.Locality)
    (failover : list v1alpha3.Failover.t) (ep : LocalityLbEndpoints) : Z :=
  let priority := LbPriority (Some locality) (Locality ep) in
  if decide (priority = 3)
  then scanFailover locality (Locality ep) failover priority
  else priority.

(** Lines 144-158, for group [i]: its priority is stored and its index
    appended to the entry of [priorityMap] for that priority. *)
Definition assignTier (locality : core.Locality)
    (failover : list v1alpha3.Failover.t)
    (acc : list LocalityLbEndpoints * gmap Z (list nat))
    (entry : nat * LocalityLbEndpoints)
    : list LocalityLbEndpoints * gmap Z (list nat) :=
  let '(i, localityEndpoint) := entry in
  let priority := tier locality failover localityEndpoint in
  (alter (setPriority (uint32 priority)) i (acc.1),
   <[priority := default [] (acc.2 !! priority) ++ [i]]> (acc.2)).

(** Lines 139-159.  Group [i] is read when the loop reaches it and only
    group [i] is written then, so the groups are read from the list as
    it was when the loop started. *)
Definition firstPass (locality : core.Locality)
    (failover : list v1alpha3.Failover.t)
    (eps : list LocalityLbEndpoints)
    : list LocalityLbEndpoints * gmap Z (list nat) :=
  foldl (assignTier locality failover) (eps, ∅) (imap pair eps).

(** Lines 164-168. *)
Definition sortedPriorities (priorityMap : gmap Z (list nat)) : list Z :=
  merge_sort Z.le (map_to_list priorityMap).*1.

(** Lines 172-177, for the priority at position [i]. *)
Definition adjustPriority (priorityMap : gmap Z (list nat))
    (eps : list LocalityLbEndpoints) (entry : nat * Z)
    : list LocalityLbEndpoints :=
  let '(i, priority) := entry in
  if decide (Z.of_nat i ≠ priority) then
    foldl (λ eps index, alter (setPriority (uint32 (Z.of_nat i))) index eps)
      eps (default [] (priorityMap !! priority))
  else eps.

(** Lines 171-178. *)
Definition adjust (priorities : list Z) (priorityMap : gmap Z (list nat))
    (eps : list LocalityLbEndpoints) : list LocalityLbEndpoints :=
  foldl (adjustPriority priorityMap) eps (imap pair priorities).

Definition applyLocalityFailover (locality : core.Locality)
    (loadAssignment : ClusterLoadAssignment)
    (failover : list v1alpha3.Failover.t) : ClusterLoadAssignment :=
  let st := firstPass locality failover (Endpoints loadAssignment) in
  setEndpoints (adjust (sortedPriorities (st.2)) (st.2) (st.1))
    loadAssignment.

(** *** ApplyLocalityLBSetting *)

Definition ApplyLocalityLBSetting (locality : option core.Locality)
    (loadAssignment : option ClusterLoadAssignment)
    (localityLB : option v1alpha3.LocalityLoadBalancerSetting)
    (enableFailover : bool) : option ClusterLoadAssignment :=
  match locality, loadAssignment with
  | Some loc, Some la =>
      match v1alpha3.GetDistribute localityLB with
      | Some rules => Some (applyLocalityWeight loc la (Some rules))
      | None =>
          if enableFailover
          then Some (applyLocalityFailover loc la
                       (v1alpha3.GetFailover localityLB))
          else Some la
      end
  | _, _ => loadAssignment
  end.

(** ** Vocabulary of the statements *)

(** A rule is applied when it is not nil and its [From] matches. *)
Definition ruleMatches (locality : core.Locality)
    (rule : option v1alpha3.Distribute.t) : bool :=
  match rule with
  | Some s => LocalityMatch (Some locality) (v1alpha3.Distribute.From s)
  | None => false
  end.

(** The tiers present in a load assignment, and the rank of a tier
    among them: the number of tiers present that are smaller. *)
Definition tiers (locality : core.Locality)
    (failover : list v1alpha3.Failover.t)
    (eps : list LocalityLbEndpoints) : gset Z :=
  list_to_set (tier locality failover <$> eps).

Definition rank (t : Z) (ts : gset Z) : nat :=
  size (filter (λ x, x < t) ts).

(** Group [k] matches a [to] pattern. *)
Definition matchesTo (pattern : string) (eps : list LocalityLbEndpoints)
    (k : nat) : bool :=
  match eps !! k with
  | Some ep => LocalityMatch (Locality ep) pattern
  | None => false
  end.

(** Group [k] is claimed by a [to] pattern: it is still in the pool
    [misMatched] and matches. *)
Definition isClaimed (pattern : string) (misMatched : gset nat)
    (eps : list LocalityLbEndpoints) (k : nat) : bool :=
  bool_decide (k ∈ misMatched) && matchesTo pattern eps k.

Definition claimedIndices (pattern : string) (misMatched : gset nat)
    (eps : list LocalityLbEndpoints) : list nat :=
  filter (λ k, isClaimed pattern misMatched eps k = true)
         (seq 0 (length eps)).

(** The original weight of group [k], when there is one. *)
Definition groupWeight (eps : list LocalityLbEndpoints) (k : nat) : Z :=
  from_option originalWeight 0 (eps !! k).

Definition sumZ (l : list Z) : Z := foldr Z.add 0 l.

(** The sum of the original weights over the claimed groups, as an
    integer without wrap-around. *)
Definition claimedTotal (pattern : string) (misMatched : gset nat)
    (eps : list LocalityLbEndpoints) : Z :=
  sumZ (groupWeight eps <$> claimedIndices pattern misMatched eps).

(** Lines 112-117 as a function of the group: what a claimed group of
    original weight [ow] becomes. *)
Definition weightUpdate (weight totalWeight ow : Z)
    (ep : LocalityLbEndpoints) : LocalityLbEndpoints :=
  let destWeight := fdiv (uint32 (ow * weight)) totalWeight in
  if fgt0 destWeight then setWeight (uint32_of_float (Ceil destWeight)) ep
  else ep.

(** The least integer that is not below [a / b], for [b > 0]. *)
Definition ceiling (a b : Z) : Z := (a + b - 1) `div` b.

(** The weights are [uint32] values. *)
Definition weightsInRange (eps : list LocalityLbEndpoints) : Prop :=
  ∀ k ep, eps !! k = Some ep → 0 ≤ originalWeight ep < 2 ^ 32.

(** The patterns of a [To] map do not overlap on a load assignment:
    the keys are distinct, as in any map, and no group is matched by
    two of them. *)
Definition nonOverlapping (eps : list LocalityLbEndpoints)
    (to : list (string * Z)) : Prop :=
  NoDup to.*1 ∧
  ∀ p p' j, p ∈ to.*1 → p' ∈ to.*1 →
    matchesTo p eps j = true → matchesTo p' eps j = true → p = p'.

(** ** Properties *)

(** *** GetLocalityLbSetting *)

(** C8: a mesh policy alone is the result; a destination policy that
    sets [enabled = false] with no mesh policy disables locality load
    balancing; a destination policy that sets [enabled = true] is the
    result as a whole, whatever the mesh policy is. *)
Theorem GetLocalityLbSetting_resolution :
  (∀ mesh, GetLocalityLbSetting (Some mesh) None = Some mesh) ∧
  (∀ distribute failover,
     GetLocalityLbSetting None
       (Some (v1alpha3.mkSetting distribute failover (Some false))) = None) ∧
  (∀ mesh distribute failover,
     GetLocalityLbSetting mesh
       (Some (v1alpha3.mkSetting distribute failover (Some true)))
     = Some (v1alpha3.mkSetting distribute failover (Some true))).
Proof.
  split; [|split].
  - intros mesh. reflexivity.
  - intros distribute failover. reflexivity.
  - intros mesh distribute failover. unfold GetLocalityLbSetting. simpl.
    reflexivity.
Qed.

(** *** ApplyLocalityLBSetting *)

(** C9: without a caller locality, or without a load assignment, the
    load assignment comes back as it was given. *)
Theorem ApplyLocalityLBSetting_absent :
  (∀ loadAssignment localityLB enableFailover,
     ApplyLocalityLBSetting None loadAssignment localityLB enableFailover
     = loadAssignment) ∧
  (∀ locality localityLB enableFailover,
     ApplyLocalityLBSetting locality None localityLB enableFailover = None).
Proof.
  split.
  - intros loadAssignment localityLB enableFailover. reflexivity.
  - intros [loc|] localityLB enableFailover; reflexivity.
Qed.

(** *** The first matching rule *)

Lemma firstMatch_skip locality pre rest :
  Forall (λ r, ruleMatches locality r = false) pre →
  firstMatch locality (pre ++ rest) = firstMatch locality rest.
Proof.
  induction 1 as [|r pre Hr _ IH]; [done|].
  destruct r as [s|]; simpl in *; [rewrite Hr|]; exact IH.
Qed.

Lemma firstMatch_none locality rules :
  Forall (λ r, ruleMatches locality r = false) rules →
  firstMatch locality rules = None.
Proof.
  intros H. rewrite <- (app_nil_r rules). by rewrite firstMatch_skip.
Qed.

(** C3: the rule applied is the first one, in list order, whose [From]
    matches the caller; the rules after it do not influence the result,
    and when no rule matches the load assignment is returned as it
    is. *)
Theorem applyLocalityWeight_first_match locality loadAssignment :
  (∀ pre s post,
     Forall (λ r, ruleMatches locality r = false) pre →
     LocalityMatch (Some locality) (v1alpha3.Distribute.From s) = true →
     applyLocalityWeight locality loadAssignment (Some (pre ++ Some s :: post))
     = setEndpoints
         (distributeTo (v1alpha3.Distribute.To s) (Endpoints loadAssignment))
         loadAssignment) ∧
  (∀ rules,
     Forall (λ r, ruleMatches locality r = false) rules →
     applyLocalityWeight locality loadAssignment (Some rules)
     = loadAssignment).
Proof.
  split.
  - intros pre s post Hpre Hs. unfold applyLocalityWeight.
    rewrite firstMatch_skip by done. simpl. by rewrite Hs.
  - intros rules Hnone. unfold applyLocalityWeight.
    by rewrite firstMatch_none.
Qed.

(** *** The first pass of applyLocalityFailover *)

Lemma imap_pair_snoc {A} (l : list A) (x : A) :
  imap pair (l ++ [x]) = imap pair l ++ [(length l, x)].
Proof.
  rewrite imap_app. simpl. by rewrite Nat.add_0_r.
Qed.

Lemma filter_ext_elem {A} (P Q : A → Prop)
    `{!∀ x, Decision (P x), !∀ x, Decision (Q x)} (l : list A) :
  (∀ x, x ∈ l → P x ↔ Q x) → filter P l = filter Q l.
Proof.
  induction l as [|x l IH]; intros Hext; [done|].
  rewrite !filter_cons.
  rewrite IH by (intros y Hy; apply Hext; by right).
  destruct (decide (P x)) as [HP|HP], (decide (Q x)) as [HQ|HQ]; try done.
  - destruct HQ. apply Hext; [by left|done].
  - destruct HP. apply Hext; [by left|done].
Qed.

Lemma firstPass_prefix locality failover eps0 l :
  let st := foldl (assignTier locality failover) (eps0, ∅) (imap pair l) in
  (∀ j, st.1 !! j =
        match l !! j with
        | Some ep => setPriority (uint32 (tier locality failover ep)) <$> eps0 !! j
        | None => eps0 !! j
        end) ∧
  (∀ p, default [] (st.2 !! p) =
        filter (λ j, tier locality failover <$> l !! j = Some p)
               (seq 0 (length l))) ∧
  (∀ p, is_Some (st.2 !! p) ↔
        ∃ j ep, l !! j = Some ep ∧ tier locality failover ep = p).
Proof.
  induction l as [|x l IH] using rev_ind; simpl.
  - split; [done|]. split; intros p.
    + by rewrite lookup_empty.
    + rewrite lookup_empty. split; [by intros [? ?]|].
      by intros (j & ep & Hj & _).
  - rewrite imap_pair_snoc, foldl_app. simpl.
    destruct IH as (IH1 & IH2 & IH3).
    set (st := foldl (assignTier locality failover) (eps0, ∅) (imap pair l)) in *.
    split; [|split].
    + intros j. destruct (decide (j = length l)) as [->|Hne].
      * rewrite list_lookup_alter_eq, IH1.
        rewrite lookup_ge_None_2 by lia.
        by rewrite lookup_app_r, Nat.sub_diag by lia.
      * rewrite list_lookup_alter_ne by done. rewrite IH1.
        destruct (decide (j < length l)%nat) as [Hlt|Hge].
        -- by rewrite lookup_app_l by done.
        -- rewrite (lookup_ge_None_2 l) by lia.
           rewrite (lookup_ge_None_2 (l ++ [x]));
             [done|rewrite length_app; simpl; lia].
    + intros p. rewrite length_app, seq_app, filter_app. simpl.
      assert (Hpre : filter (λ j, tier locality failover <$> (l ++ [x]) !! j = Some p)
                       (seq 0 (length l))
                     = filter (λ j, tier locality failover <$> l !! j = Some p)
                       (seq 0 (length l))).
      { apply filter_ext_elem. intros j Hj.
        apply elem_of_seq in Hj. by rewrite lookup_app_l by lia. }
      rewrite Hpre, <- IH2.
      rewrite filter_cons, filter_nil.
      rewrite lookup_app_r, Nat.sub_diag by lia. simpl.
      destruct (decide (tier locality failover x = p)) as [->|Hne].
      * rewrite lookup_insert_eq. simpl.
        rewrite decide_True by done. done.
      * rewrite lookup_insert_ne by done.
        rewrite decide_False by congruence. by rewrite app_nil_r.
    + intros p. destruct (decide (tier locality failover x = p)) as [<-|Hne].
      * rewrite lookup_insert_eq. split; [|by eauto].
        intros _. exists (length l), x. split; [|done].
        by rewrite lookup_app_r, Nat.sub_diag by lia.
      * rewrite lookup_insert_ne by done. rewrite IH3. split.
        -- intros (j & ep & Hj & Hp). exists j, ep. split; [|done].
           rewrite lookup_app_l; [done|]. by eapply lookup_lt_Some.
        -- intros (j & ep & Hj & Hp).
           destruct (decide (j < length l)%nat) as [Hlt|Hge].
           ++ exists j, ep. split; [|done]. by rewrite lookup_app_l in Hj.
           ++ rewrite lookup_app_r in Hj by lia.
              apply list_lookup_singleton_Some in Hj as [_ ->]. done.
Qed.

(** After the first pass every group carries its tier as its priority,
    and nothing else of it has changed. *)
Lemma firstPass_lookup locality failover eps i ep :
  eps !! i = Some ep →
  (firstPass locality failover eps).1 !! i
  = Some (setPriority (uint32 (tier locality failover ep)) ep).
Proof.
  intros Hi. unfold firstPass.
  destruct (firstPass_prefix locality failover eps eps) as (H1 & _).
  simpl in H1. rewrite H1, Hi. done.
Qed.

Lemma scanFailover_cases locality epLocality failover :
  (scanFailover locality epLocality failover 3 = 4 ↔
     ∃ pre fs post,
       failover = pre ++ fs :: post ∧
       Forall (λ f, v1alpha3.Failover.From f ≠ Region locality) pre ∧
       v1alpha3.Failover.From fs = Region locality ∧
       (∀ l, epLocality = Some l → Region l ≠ v1alpha3.Failover.To fs)) ∧
  (scanFailover locality epLocality failover 3 = 4 ∨
   scanFailover locality epLocality failover 3 = 3).
Proof.
  induction failover as [|f rest [IHiff IHor]]; simpl.
  - split; [|by right]. split; [done|].
    intros (pre & fs & post & Heq & _). by destruct pre.
  - destruct (decide (v1alpha3.Failover.From f = Region locality)) as [Hf|Hf].
    + destruct epLocality as [l|].
      * destruct (decide (Region l ≠ v1alpha3.Failover.To f)) as [Hr|Hr].
        -- split; [|by left]. split; [|done]. intros _.
           exists [], f, rest. repeat split; [done..|]. by intros ? [= <-].
        -- split; [|by right]. split; [done|].
           intros ([|f' pre] & fs & post & Heq & Hpre & Hfs & Hto).
           ++ simplify_eq/=. destruct (Hto l eq_refl). by apply dec_stable.
           ++ simplify_eq/=. by apply Forall_cons_1 in Hpre as [? _].
      * split; [|by left]. split; [|done]. intros _.
        exists [], f, rest. repeat split; done.
    + split; [|done]. rewrite IHiff. split.
      * intros (pre & fs & post & -> & Hpre & Hfs & Hto).
        exists (f :: pre), fs, post. repeat split; [|done..].
        by constructor.
      * intros ([|f' pre] & fs & post & Heq & Hpre & Hfs & Hto);
          simplify_eq/=.
        apply Forall_cons_1 in Hpre as [_ Hpre].
        by exists pre, fs, post.
Qed.

(** C7: a group of raw tier 3 gets tier 4 exactly when there is a
    failover setting whose [From] is the caller's region and the first
    such setting names another region than the group's (a group
    without locality counts as another region); otherwise it keeps
    tier 3. The first pass stores that tier as the group's priority. *)
Theorem tier_escalation locality failover eps i ep :
  eps !! i = Some ep →
  LbPriority (Some locality) (Locality ep) = 3 →
  (tier locality failover ep = 4 ↔
     ∃ pre fs post,
       failover = pre ++ fs :: post ∧
       Forall (λ f, v1alpha3.Failover.From f ≠ Region locality) pre ∧
       v1alpha3.Failover.From fs = Region locality ∧
       (∀ l, Locality ep = Some l → Region l ≠ v1alpha3.Failover.To fs)) ∧
  (tier locality failover ep = 4 ∨ tier locality failover ep = 3) ∧
  Priority <$> (firstPass locality failover eps).1 !! i
  = Some (tier locality failover ep).
Proof.
  intros Hi Hraw.
  assert (Ht : tier locality failover ep
               = scanFailover locality (Locality ep) failover 3).
  { unfold tier. rewrite Hraw. by rewrite decide_True. }
  destruct (scanFailover_cases locality (Locality ep) failover) as [Hiff Hor].
  rewrite Ht. split; [exact Hiff|]. split; [exact Hor|].
  rewrite (firstPass_lookup _ _ _ _ _ Hi), Ht. simpl.
  by destruct Hor as [-> | ->].
Qed.

(** *** Writes through a list of indices *)

Lemma foldr_alter_not_elem {A} (f : A → A) (l : list nat) (e : list A) j :
  j ∉ l → foldr (alter f) e l !! j = e !! j.
Proof.
  induction l as [|i l IH]; simpl; [done|].
  intros Hj. apply not_elem_of_cons in Hj as [Hne Hj].
  rewrite list_lookup_alter_ne by done. by apply IH.
Qed.

Lemma foldr_alter_elem {A} (f : A → A) (l : list nat) (e : list A) j :
  NoDup l → j ∈ l → foldr (alter f) e l !! j = f <$> e !! j.
Proof.
  induction l as [|i l IH]; simpl; intros Hnd Hj.
  - by apply elem_of_nil in Hj.
  - apply NoDup_cons in Hnd as [Hi Hnd].
    destruct (decide (i = j)) as [->|Hne].
    + rewrite list_lookup_alter_eq. by rewrite foldr_alter_not_elem.
    + rewrite list_lookup_alter_ne by done.
      apply elem_of_cons in Hj as [->|Hj]; [done|]. by apply IH.
Qed.

Lemma foldl_alter_length {A} (f : A → A) (l : list nat) (e : list A) :
  length (foldl (λ e i, alter f i e) e l) = length e.
Proof.
  revert e. induction l as [|i l IH]; intros e; simpl; [done|].
  by rewrite IH, length_alter.
Qed.

Lemma foldl_alter_not_elem {A} (f : A → A) (l : list nat) (e : list A) j :
  j ∉ l → foldl (λ e i, alter f i e) e l !! j = e !! j.
Proof.
  revert e. induction l as [|i l IH]; intros e Hj; simpl; [done|].
  apply not_elem_of_cons in Hj as [Hne Hj].
  rewrite IH by done. by apply list_lookup_alter_ne.
Qed.

Lemma foldl_alter_elem {A} (f : A → A) (l : list nat) (e : list A) j :
  NoDup l → j ∈ l → foldl (λ e i, alter f i e) e l !! j = f <$> e !! j.
Proof.
  revert e. induction l as [|i l IH]; intros e Hnd Hj; simpl.
  - by apply elem_of_nil in Hj.
  - apply NoDup_cons in Hnd as [Hi Hnd].
    destruct (decide (i = j)) as [->|Hne].
    + rewrite foldl_alter_not_elem by done. apply list_lookup_alter_eq.
    + apply elem_of_cons in Hj as [->|Hj]; [done|].
      rewrite IH by done. by rewrite list_lookup_alter_ne.
Qed.

(** *** Sorted lists of distinct integers *)

Lemma Sorted_le_NoDup_lt (l : list Z) :
  Sorted Z.le l → NoDup l → StronglySorted Z.lt l.
Proof.
  intros Hs Hnd. apply Sorted_StronglySorted in Hs; [|apply _].
  induction Hs as [|x l Hs IH Hx]; [constructor|].
  apply NoDup_cons in Hnd as [Hnotin Hnd].
  constructor; [by apply IH|].
  rewrite Forall_forall in Hx |- *. intros y Hy.
  assert (x ≠ y) by (by intros ->).
  specialize (Hx y Hy). lia.
Qed.

Lemma StronglySorted_lt_NoDup (l : list Z) :
  StronglySorted Z.lt l → NoDup l.
Proof.
  induction 1 as [|x l Hs IH Hx]; [constructor|].
  apply NoDup_cons. split; [|done].
  intros Hin. rewrite Forall_forall in Hx.
  specialize (Hx x Hin). lia.
Qed.

(** In a strictly increasing list the position of an element is the
    number of elements smaller than it. *)
Lemma sorted_position_rank (l : list Z) k t :
  StronglySorted Z.lt l → l !! k = Some t →
  rank t (list_to_set l) = k.
Proof.
  intros Hs Hk. unfold rank.
  pose proof (StronglySorted_lt_NoDup l Hs) as Hnd.
  rewrite <- (take_drop_middle l k t Hk) in Hs, Hnd.
  assert (Hset : filter (λ x, x < t) (list_to_set l : gset Z)
                 = list_to_set (take k l)).
  { apply set_eq. intros x. rewrite elem_of_filter, !elem_of_list_to_set.
    rewrite <- (take_drop_middle l k t Hk) at 1.
    rewrite elem_of_app, elem_of_cons. split.
    - intros [Hlt [Hin|[->|Hin]]]; [done|lia|].
      apply StronglySorted_app in Hs as (_ & _ & Hs).
      apply StronglySorted_cons in Hs as [Hall _].
      rewrite Forall_forall in Hall.
      specialize (Hall x Hin). lia.
    - intros Hin. split; [|by left].
      eapply (StronglySorted_app_1_elem_of Z.lt); [exact Hs|exact Hin|].
      by left. }
  rewrite Hset, size_list_to_set.
  - rewrite length_take. apply lookup_lt_Some in Hk. lia.
  - by apply NoDup_app in Hnd as [? _].
Qed.

Lemma sorted_position_le (l : list Z) :
  StronglySorted Z.lt l →
  ∀ m, Forall (λ x, m ≤ x) l →
  ∀ k t, l !! k = Some t → m + Z.of_nat k ≤ t.
Proof.
  induction 1 as [|x l Hs IH Hx]; intros m Hm k t Hk; [done|].
  apply Forall_cons_1 in Hm as [Hmx Hm].
  destruct k as [|k]; simpl in Hk.
  - simplify_eq. lia.
  - assert (Hm' : Forall (λ y, m + 1 ≤ y) l).
    { eapply Forall_impl; [exact Hx|]. simpl. intros y Hy. lia. }
    specialize (IH (m + 1) Hm' k t Hk). lia.
Qed.

(** *** The second pass of applyLocalityFailover *)

Lemma adjust_length ps pm e : length (adjust ps pm e) = length e.
Proof.
  unfold adjust. generalize (imap pair ps). intros l. revert e.
  induction l as [|[i p] l IH]; intros e; simpl; [done|].
  rewrite IH. case_decide; [|done]. apply foldl_alter_length.
Qed.

Lemma adjust_lookup locality failover eps pm e ps :
  (∀ p, default [] (pm !! p) =
        filter (λ j, tier locality failover <$> eps !! j = Some p)
               (seq 0 (length eps))) →
  NoDup ps →
  (∀ j ep, eps !! j = Some ep →
     e !! j = Some (setPriority (uint32 (tier locality failover ep)) ep)) →
  ∀ j ep, eps !! j = Some ep →
    (∀ k, ps !! k = Some (tier locality failover ep) →
       adjust ps pm e !! j = Some (setPriority (uint32 (Z.of_nat k)) ep)) ∧
    (tier locality failover ep ∉ ps →
       adjust ps pm e !! j
       = Some (setPriority (uint32 (tier locality failover ep)) ep)).
Proof.
  intros Hpm. unfold adjust.
  induction ps as [|p ps IH] using rev_ind; intros Hnd He j ep Hj.
  - split; [done|]. intros _. by apply He.
  - apply NoDup_app in Hnd as (Hnd & Hp & _).
    assert (Hpnotin : p ∉ ps).
    { intros Hin. apply (Hp p Hin). by left. }
    destruct (IH Hnd He j ep Hj) as [IHpos IHnot].
    rewrite imap_pair_snoc, foldl_app. simpl.
    set (r := foldl (adjustPriority pm) e (imap pair ps)) in *.
    assert (Hidx : ∀ i, i ∈ default [] (pm !! p) ↔
                          tier locality failover <$> eps !! i = Some p).
    { intros i. rewrite Hpm, list_elem_of_filter, elem_of_seq.
      split; [by intros [? _]|]. intros Hi. split; [done|].
      destruct (eps !! i) eqn:Hei; [|done].
      apply lookup_lt_Some in Hei. lia. }
    assert (Hndidx : NoDup (default [] (pm !! p))).
    { rewrite Hpm. apply NoDup_filter, NoDup_seq. }
    destruct (decide (tier locality failover ep = p)) as [Heq|Hne].
    + assert (Hr : r !! j = Some (setPriority (uint32 p) ep)).
      { rewrite <- Heq. apply IHnot. by rewrite Heq. }
      split.
      * intros k Hk.
        assert (k = length ps) as ->.
        { destruct (decide (k < length ps)%nat) as [Hlt|Hge].
          - rewrite lookup_app_l in Hk by done.
            destruct Hpnotin. rewrite <- Heq.
            apply list_elem_of_lookup. by exists k.
          - apply lookup_lt_Some in Hk. rewrite length_app in Hk.
            simpl in Hk. lia. }
        case_decide as Hkp.
        -- rewrite foldl_alter_elem; [|done|].
           ++ by rewrite Hr.
           ++ apply Hidx. by rewrite Hj, <- Heq.
        -- rewrite Hr.
           assert (Z.of_nat (length ps) = p) as -> by (clear -Hkp; lia).
           done.
      * intros Hnotin. destruct Hnotin. rewrite Heq.
        apply elem_of_app. right. by left.
    + assert (Hr' : adjustPriority pm r (length ps, p) !! j = r !! j).
      { simpl. case_decide; [|done].
        apply foldl_alter_not_elem. rewrite Hidx, Hj. simpl. congruence. }
      unfold adjustPriority in Hr'. rewrite Hr'. split.
      * intros k Hk. apply IHpos.
        destruct (decide (k < length ps)%nat) as [Hlt|Hge].
        -- by rewrite lookup_app_l in Hk.
        -- rewrite lookup_app_r in Hk by lia.
           apply list_lookup_singleton_Some in Hk as [_ Hk]. congruence.
      * intros Hnotin. apply IHnot. intros Hin. apply Hnotin.
        apply elem_of_app. by left.
Qed.

(** The priorities the second pass ranges over: the tiers present, in
    strictly increasing order. *)
Lemma sortedPriorities_spec locality failover eps :
  let ps := sortedPriorities (firstPass locality failover eps).2 in
  StronglySorted Z.lt ps ∧
  (list_to_set ps : gset Z) = tiers locality failover eps.
Proof.
  simpl. unfold sortedPriorities, firstPass.
  destruct (firstPass_prefix locality failover eps eps) as (_ & _ & H3).
  simpl in H3.
  set (pm := (foldl (assignTier locality failover) (eps, ∅) (imap pair eps)).2) in *.
  assert (Hperm : merge_sort Z.le (map_to_list pm).*1 ≡ₚ (map_to_list pm).*1)
    by apply merge_sort_Permutation.
  split.
  - apply Sorted_le_NoDup_lt.
    + apply Sorted_merge_sort. apply _.
    + rewrite Hperm. apply NoDup_fst_map_to_list.
  - apply set_eq. intros p. rewrite elem_of_list_to_set, Hperm.
    unfold tiers. rewrite elem_of_list_to_set, list_elem_of_fmap.
    rewrite list_elem_of_fmap. split.
    + intros ([p' l] & -> & Hin). apply elem_of_map_to_list in Hin.
      destruct (proj1 (H3 p')) as (j & ep & Hj & Hp); [by eexists|].
      exists ep. split; [done|]. apply list_elem_of_lookup. by exists j.
    + intros (ep & -> & Hin). apply list_elem_of_lookup in Hin as [j Hj].
      destruct (proj2 (H3 (tier locality failover ep))) as [l Hl];
        [by exists j, ep|].
      exists (tier locality failover ep, l). split; [done|].
      by apply elem_of_map_to_list.
Qed.

Section ranks.

(** [util.LbPriority] returns one of the four ranks that the comments
    at lines 140-143 list. *)
Hypothesis LbPriority_range :
  ∀ proxy ep, 0 ≤ LbPriority proxy ep ≤ 3.

Lemma scanFailover_range locality epLocality failover priority :
  0 ≤ priority ≤ 4 →
  0 ≤ scanFailover locality epLocality failover priority ≤ 4.
Proof.
  intros Hp. induction failover as [|f rest IH]; simpl; [done|].
  case_decide; [|done]. destruct epLocality; [case_decide|]; lia.
Qed.

Lemma tier_range locality failover ep :
  0 ≤ tier locality failover ep ≤ 4.
Proof.
  unfold tier. pose proof (LbPriority_range (Some locality) (Locality ep)).
  case_decide; [apply scanFailover_range|]; lia.
Qed.

(** The result of [applyLocalityFailover], group by group: the priority
    is the rank of the group's tier among the tiers present, the rest
    of the group is as it was. *)
Lemma applyLocalityFailover_lookup locality failover la i ep :
  Endpoints la !! i = Some ep →
  Endpoints (applyLocalityFailover locality la failover) !! i
  = Some (setPriority
            (Z.of_nat (rank (tier locality failover ep)
                            (tiers locality failover (Endpoints la))))
            ep).
Proof.
  intros Hi. unfold applyLocalityFailover. simpl.
  destruct (sortedPriorities_spec locality failover (Endpoints la))
    as [Hsorted Hset]. simpl in Hsorted, Hset.
  set (ps := sortedPriorities (firstPass locality failover (Endpoints la)).2) in *.
  assert (Hin : tier locality failover ep ∈ ps).
  { apply (elem_of_list_to_set (C := gset Z)). rewrite Hset. unfold tiers.
    apply elem_of_list_to_set, list_elem_of_fmap_2.
    apply list_elem_of_lookup. by exists i. }
  apply list_elem_of_lookup in Hin as [k Hk].
  destruct (firstPass_prefix locality failover (Endpoints la) (Endpoints la))
    as (_ & Hpm & _).
  destruct (adjust_lookup locality failover (Endpoints la)
              (firstPass locality failover (Endpoints la)).2
              (firstPass locality failover (Endpoints la)).1 ps Hpm
              (StronglySorted_lt_NoDup _ Hsorted)
              (firstPass_lookup locality failover (Endpoints la))
              i ep Hi) as [Hpos _].
  rewrite (Hpos k Hk).
  rewrite <- Hset, (sorted_position_rank ps k _ Hsorted Hk).
  assert (Hle : 0 + Z.of_nat k ≤ tier locality failover ep).
  { eapply sorted_position_le; [exact Hsorted| |exact Hk].
    apply Forall_forall. intros x Hx.
    apply (elem_of_list_to_set (C := gset Z)) in Hx. rewrite Hset in Hx.
    unfold tiers in Hx.
    apply elem_of_list_to_set, list_elem_of_fmap in Hx as (ep' & -> & _).
    apply tier_range. }
  pose proof (tier_range locality failover ep).
  unfold uint32. rewrite Z.mod_small by lia. done.
Qed.

(** *** Ranks in a finite set of integers *)

Lemma rank_lt_size (t : Z) (ts : gset Z) :
  t ∈ ts → (rank t ts < size ts)%nat.
Proof.
  intros Ht. unfold rank. apply subset_size. split.
  - intros x Hx. by apply elem_of_filter in Hx as [_ ?].
  - intros Hsub. specialize (Hsub t Ht).
    apply elem_of_filter in Hsub as [Hlt _]. lia.
Qed.

Lemma rank_reached (n : nat) (ts : gset Z) :
  (n < size ts)%nat → ∃ t, t ∈ ts ∧ rank t ts = n.
Proof.
  intros Hn. set (l := merge_sort Z.le (elements ts)).
  assert (Hperm : l ≡ₚ elements ts) by apply merge_sort_Permutation.
  assert (Hs : StronglySorted Z.lt l).
  { apply Sorted_le_NoDup_lt; [apply Sorted_merge_sort, _|].
    rewrite Hperm. apply NoDup_elements. }
  assert (Hset : (list_to_set l : gset Z) = ts).
  { apply set_eq. intros x.
    by rewrite elem_of_list_to_set, Hperm, elem_of_elements. }
  assert (Hlen : length l = size ts).
  { rewrite <- Hset. symmetry. apply size_list_to_set.
    by apply StronglySorted_lt_NoDup. }
  destruct (lookup_lt_is_Some_2 l n) as [t Ht]; [lia|].
  exists t. split.
  - rewrite <- Hset. apply elem_of_list_to_set, list_elem_of_lookup.
    by exists n.
  - rewrite <- Hset. by apply sorted_position_rank.
Qed.

Lemma rank_least (t : Z) (ts : gset Z) :
  (∀ x, x ∈ ts → t ≤ x) → rank t ts = 0%nat.
Proof.
  intros Hmin. unfold rank.
  assert (filter (λ x, x < t) ts = ∅) as ->; [|apply size_empty].
  apply set_eq. intros x. rewrite elem_of_filter. split; [|set_solver].
  intros [Hlt Hx]. specialize (Hmin x Hx). lia.
Qed.

(** *** applyLocalityFailover *)

Lemma firstPass_length locality failover eps :
  length (firstPass locality failover eps).1 = length eps.
Proof.
  unfold firstPass. generalize (imap pair eps). intros l.
  generalize (∅ : gmap Z (list nat)). generalize eps.
  induction l as [|[i ep] l IH]; intros e pm; simpl; [done|].
  rewrite IH. apply length_alter.
Qed.

Lemma applyLocalityFailover_length locality failover la :
  length (Endpoints (applyLocalityFailover locality la failover))
  = length (Endpoints la).
Proof.
  unfold applyLocalityFailover. simpl.
  by rewrite adjust_length, firstPass_length.
Qed.

(** C1: after [applyLocalityFailover] on a load assignment with at
    least one group, the priorities that occur are exactly
    [0, 1, ..., k] where [k + 1] is the number of distinct tiers of the
    first pass; the priority of a group is the rank of its tier among
    those tiers, so that groups of the same tier share a priority and
    the smallest tier present gets priority 0. *)
Theorem applyLocalityFailover_compaction locality failover la :
  let eps := Endpoints la in
  let eps' := Endpoints (applyLocalityFailover locality la failover) in
  let ts := tiers locality failover eps in
  eps ≠ [] →
  (0 < size ts)%nat ∧
  (∀ p, (∃ ep', ep' ∈ eps' ∧ Priority ep' = p)
        ↔ 0 ≤ p ≤ Z.of_nat (size ts) - 1) ∧
  (∀ i ep, eps !! i = Some ep →
     Priority <$> eps' !! i
     = Some (Z.of_nat (rank (tier locality failover ep) ts))) ∧
  (∀ i j ep1 ep2, eps !! i = Some ep1 → eps !! j = Some ep2 →
     tier locality failover ep1 = tier locality failover ep2 →
     Priority <$> eps' !! i = Priority <$> eps' !! j) ∧
  (∀ i ep, eps !! i = Some ep →
     (∀ t, t ∈ ts → tier locality failover ep ≤ t) →
     Priority <$> eps' !! i = Some 0).
Proof.
  intros eps eps' ts Hne.
  assert (Hprio : ∀ i ep, eps !! i = Some ep →
            Priority <$> eps' !! i
            = Some (Z.of_nat (rank (tier locality failover ep) ts))).
  { intros i ep Hi. unfold eps'.
    by rewrite (applyLocalityFailover_lookup _ _ _ _ _ Hi). }
  assert (Hmem : ∀ i ep, eps !! i = Some ep → tier locality failover ep ∈ ts).
  { intros i ep Hi. unfold ts, tiers.
    apply elem_of_list_to_set, list_elem_of_fmap_2, list_elem_of_lookup.
    by exists i. }
  split; [|split; [|split; [|split]]].
  - destruct eps as [|ep0 rest] eqn:Heps; [done|].
    pose proof (rank_lt_size _ _ (Hmem 0%nat ep0 eq_refl)). lia.
  - intros p. split.
    + intros (ep' & Hin & <-).
      apply list_elem_of_lookup in Hin as [i Hi'].
      assert (Hlt : (i < length eps)%nat).
      { unfold eps. rewrite <- (applyLocalityFailover_length locality failover).
        by eapply lookup_lt_Some. }
      destruct (lookup_lt_is_Some_2 eps i Hlt) as [ep Hi].
      pose proof (Hprio i ep Hi) as Hp. rewrite Hi' in Hp. simpl in Hp.
      injection Hp as ->.
      pose proof (rank_lt_size _ _ (Hmem i ep Hi)). lia.
    + intros Hp.
      destruct (rank_reached (Z.to_nat p) ts) as (t & Ht & Hrank); [lia|].
      unfold ts, tiers in Ht.
      apply elem_of_list_to_set, list_elem_of_fmap in Ht as (ep & -> & Hin).
      apply list_elem_of_lookup in Hin as [i Hi].
      pose proof (Hprio i ep Hi) as Hpi.
      destruct (eps' !! i) as [ep'|] eqn:Hi'; [|done].
      exists ep'. split; [apply list_elem_of_lookup; by exists i|].
      simpl in Hpi. injection Hpi as ->. fold ts in Hrank. lia.
  - exact Hprio.
  - intros i j ep1 ep2 Hi Hj Heq.
    by rewrite (Hprio i ep1 Hi), (Hprio j ep2 Hj), Heq.
  - intros i ep Hi Hmin. rewrite (Hprio i ep Hi).
    by rewrite rank_least.
Qed.

(** *** ApplyLocalityLBSetting without a policy *)

(** C10: with a caller locality and a load assignment but no policy,
    [enableFailover] still runs the failover assignment, with an empty
    list of failover settings: the tier of a group is its
    [LbPriority], never 4 by escalation, and its priority is the rank
    of that tier among the tiers present. *)
Theorem ApplyLocalityLBSetting_nil_policy locality la :
  ApplyLocalityLBSetting (Some locality) (Some la) None true
  = Some (applyLocalityFailover locality la []) ∧
  ∀ i ep, Endpoints la !! i = Some ep →
    tier locality [] ep = LbPriority (Some locality) (Locality ep) ∧
    Endpoints (applyLocalityFailover locality la []) !! i
    = Some (setPriority
              (Z.of_nat
                 (rank (LbPriority (Some locality) (Locality ep))
                    (list_to_set
                       ((λ e, LbPriority (Some locality) (Locality e))
                          <$> Endpoints la))))
              ep).
Proof.
  split; [done|]. intros i ep Hi.
  assert (Htier : ∀ e, tier locality [] e
                       = LbPriority (Some locality) (Locality e)).
  { intros e. unfold tier. by case_decide. }
  split; [apply Htier|].
  rewrite (applyLocalityFailover_lookup _ _ _ _ _ Hi), Htier.
  unfold tiers.
  rewrite (list_fmap_ext (tier locality [])
             (λ e, LbPriority (Some locality) (Locality e)) (Endpoints la));
    [done|]. intros ? e _. apply Htier.
Qed.

End ranks.

(** *** Claiming the groups of one [to] pattern *)

Lemma matchesTo_snoc_lt pattern l x k :
  (k < length l)%nat → matchesTo pattern (l ++ [x]) k = matchesTo pattern l k.
Proof. intros Hk. unfold matchesTo. by rewrite lookup_app_l. Qed.

Lemma matchesTo_ge pattern l k :
  (length l ≤ k)%nat → matchesTo pattern l k = false.
Proof. intros Hk. unfold matchesTo. by rewrite lookup_ge_None_2. Qed.

Lemma isClaimed_snoc_lt pattern mis l x k :
  (k < length l)%nat →
  isClaimed pattern mis (l ++ [x]) k = isClaimed pattern mis l k.
Proof. intros Hk. unfold isClaimed. by rewrite matchesTo_snoc_lt. Qed.

Lemma isClaimed_ge pattern mis l k :
  (length l ≤ k)%nat → isClaimed pattern mis l k = false.
Proof.
  intros Hk. unfold isClaimed. rewrite matchesTo_ge by done.
  apply andb_false_r.
Qed.

Lemma isClaimed_snoc_eq pattern mis l x :
  isClaimed pattern mis (l ++ [x]) (length l)
  = bool_decide (length l ∈ mis) && LocalityMatch (Locality x) pattern.
Proof.
  unfold isClaimed, matchesTo.
  by rewrite lookup_app_r, Nat.sub_diag by lia.
Qed.

Lemma groupWeight_snoc_lt l x k :
  (k < length l)%nat → groupWeight (l ++ [x]) k = groupWeight l k.
Proof. intros Hk. unfold groupWeight. by rewrite lookup_app_l. Qed.

Lemma groupWeight_snoc_eq l x :
  groupWeight (l ++ [x]) (length l) = originalWeight x.
Proof.
  unfold groupWeight. by rewrite lookup_app_r, Nat.sub_diag by lia.
Qed.

Lemma claimedIndices_lt pattern mis l k :
  k ∈ claimedIndices pattern mis l → (k < length l)%nat.
Proof.
  unfold claimedIndices. rewrite list_elem_of_filter, elem_of_seq. lia.
Qed.

Lemma elem_of_claimedIndices pattern mis l k :
  k ∈ claimedIndices pattern mis l ↔ isClaimed pattern mis l k = true.
Proof.
  unfold claimedIndices. rewrite list_elem_of_filter, elem_of_seq.
  split; [by intros [? _]|]. intros Hk. split; [done|].
  destruct (decide (k < length l)%nat); [lia|].
  rewrite isClaimed_ge in Hk by lia. done.
Qed.

Lemma claimedIndices_snoc pattern mis l x :
  claimedIndices pattern mis (l ++ [x])
  = claimedIndices pattern mis l
    ++ (if isClaimed pattern mis (l ++ [x]) (length l)
        then [length l] else []).
Proof.
  unfold claimedIndices. rewrite length_app, seq_app, filter_app. simpl.
  f_equal.
  - apply filter_ext_elem. intros k Hk. apply elem_of_seq in Hk.
    by rewrite isClaimed_snoc_lt by lia.
  - rewrite filter_cons, filter_nil.
    destruct (isClaimed pattern mis (l ++ [x]) (length l));
      by case_decide.
Qed.

Lemma sumZ_app l1 l2 : sumZ (l1 ++ l2) = sumZ l1 + sumZ l2.
Proof. unfold sumZ. induction l1 as [|a l1 IH]; simpl; lia. Qed.

Lemma claimedTotal_snoc pattern mis l x :
  claimedTotal pattern mis (l ++ [x])
  = claimedTotal pattern mis l
    + (if isClaimed pattern mis (l ++ [x]) (length l)
       then originalWeight x else 0).
Proof.
  unfold claimedTotal. rewrite claimedIndices_snoc, fmap_app, sumZ_app.
  f_equal.
  - f_equal. apply list_fmap_ext. intros ? k Hk.
    apply list_elem_of_lookup_2, claimedIndices_lt in Hk.
    by apply groupWeight_snoc_lt.
  - destruct (isClaimed pattern mis (l ++ [x]) (length l)); simpl; [|done].
    rewrite groupWeight_snoc_eq. lia.
Qed.

Lemma uint32_add_l a b : uint32 (uint32 a + b) = uint32 (a + b).
Proof. unfold uint32. by rewrite Zplus_mod_idemp_l. Qed.

(** What the first inner loop computes. *)
Lemma claimGroups_spec pattern mis l :
  let st := claimGroups pattern mis l in
  (∀ j, j ∈ st.1.1 ↔ j ∈ mis ∧ isClaimed pattern mis l j = false) ∧
  (∀ j, st.1.2 !! j =
        if isClaimed pattern mis l j then Some (groupWeight l j) else None) ∧
  st.2 = uint32 (claimedTotal pattern mis l).
Proof.
  unfold claimGroups.
  induction l as [|x l IH] using rev_ind; simpl.
  - split; [|split]; [| |done].
    + intros j. rewrite isClaimed_ge by (simpl; lia). intuition congruence.
    + intros j. rewrite isClaimed_ge by (simpl; lia). apply lookup_empty.
  - rewrite imap_pair_snoc, foldl_app. simpl.
    destruct IH as (IH1 & IH2 & IH3).
    destruct (foldl (claimGroup pattern) (mis, ∅, 0) (imap pair l))
      as [[cur dest] total]. simpl in *.
    assert (Hcur : length l ∈ cur ↔ length l ∈ mis).
    { rewrite IH1, isClaimed_ge by lia. intuition congruence. }
    rewrite claimedTotal_snoc.
    pose proof (isClaimed_snoc_eq pattern mis l x) as Heq.
    destruct (decide (length l ∈ cur)) as [Hin|Hnotin].
    + rewrite bool_decide_eq_true_2 in Heq by (by apply Hcur).
      simpl in Heq.
      destruct (LocalityMatch (Locality x) pattern) eqn:Hm; simpl.
      * rewrite Heq. split; [|split].
        -- intros j. rewrite elem_of_difference, elem_of_singleton, IH1.
           destruct (decide (j = length l)) as [->|Hne].
           ++ rewrite Heq. intuition congruence.
           ++ destruct (decide (j < length l)%nat).
              ** rewrite isClaimed_snoc_lt by done. intuition congruence.
              ** rewrite !isClaimed_ge by (rewrite ?length_app; simpl; lia).
                 intuition congruence.
        -- intros j. destruct (decide (j = length l)) as [->|Hne].
           ++ by rewrite lookup_insert_eq, Heq, groupWeight_snoc_eq.
           ++ rewrite lookup_insert_ne by done. rewrite IH2.
              destruct (decide (j < length l)%nat).
              ** by rewrite isClaimed_snoc_lt, groupWeight_snoc_lt by done.
              ** by rewrite !isClaimed_ge by (rewrite ?length_app; simpl; lia).
        -- rewrite lookup_insert_eq. simpl. rewrite IH3.
           apply uint32_add_l.
      * rewrite Heq, Z.add_0_r. split; [|split]; [| |done].
        -- intros j. rewrite IH1.
           destruct (decide (j < length l)%nat).
           ++ by rewrite isClaimed_snoc_lt by done.
           ++ destruct (decide (j = length l)) as [->|Hne].
              ** rewrite Heq, isClaimed_ge by lia. done.
              ** by rewrite !isClaimed_ge by (rewrite ?length_app; simpl; lia).
        -- intros j. rewrite IH2.
           destruct (decide (j < length l)%nat).
           ++ by rewrite isClaimed_snoc_lt, groupWeight_snoc_lt by done.
           ++ destruct (decide (j = length l)) as [->|Hne].
              ** rewrite Heq, isClaimed_ge by lia. done.
              ** by rewrite !isClaimed_ge by (rewrite ?length_app; simpl; lia).
    + rewrite bool_decide_eq_false_2 in Heq by (by rewrite <- Hcur).
      simpl in Heq. rewrite Heq, Z.add_0_r.
      split; [|split]; [| |done].
      * intros j. rewrite IH1.
        destruct (decide (j < length l)%nat).
        -- by rewrite isClaimed_snoc_lt by done.
        -- destruct (decide (j = length l)) as [->|Hne].
           ++ rewrite Heq, isClaimed_ge by lia. done.
           ++ by rewrite !isClaimed_ge by (rewrite ?length_app; simpl; lia).
      * intros j. rewrite IH2.
        destruct (decide (j < length l)%nat).
        -- by rewrite isClaimed_snoc_lt, groupWeight_snoc_lt by done.
        -- destruct (decide (j = length l)) as [->|Hne].
           ++ rewrite Heq, isClaimed_ge by lia. done.
           ++ by rewrite !isClaimed_ge by (rewrite ?length_app; simpl; lia).
Qed.

(** *** Assigning the weights of one [to] pattern *)

Lemma assignWeight_alter weight totalWeight index ow eps :
  assignWeight weight totalWeight (index, ow) eps
  = alter (weightUpdate weight totalWeight ow) index eps.
Proof.
  unfold assignWeight, weightUpdate.
  destruct (fgt0 (fdiv (uint32 (ow * weight)) totalWeight)); [done|].
  symmetry. by apply list_alter_id.
Qed.

Lemma assignWeights_pairs weight totalWeight (l : list (nat * Z)) eps j :
  NoDup l.*1 →
  foldr (assignWeight weight totalWeight) eps l !! j
  = match (list_to_map l : gmap nat Z) !! j with
    | Some ow => weightUpdate weight totalWeight ow <$> eps !! j
    | None => eps !! j
    end.
Proof.
  induction l as [|[k ow] l IH]; intros Hnd; [done|].
  rewrite fmap_cons in Hnd. apply NoDup_cons in Hnd as [Hk Hnd].
  cbn [foldr]. rewrite assignWeight_alter, list_to_map_cons.
  destruct (decide (k = j)) as [->|Hne].
  - rewrite lookup_insert_eq, list_lookup_alter_eq, IH by done.
    by rewrite not_elem_of_list_to_map_1.
  - rewrite lookup_insert_ne, list_lookup_alter_ne by done. by apply IH.
Qed.

Lemma assignWeights_lookup weight totalWeight destLocMap eps j :
  assignWeights weight totalWeight destLocMap eps !! j
  = match destLocMap !! j with
    | Some ow => weightUpdate weight totalWeight ow <$> eps !! j
    | None => eps !! j
    end.
Proof.
  unfold assignWeights.
  rewrite assignWeights_pairs by apply NoDup_fst_map_to_list.
  by rewrite list_to_map_to_list.
Qed.

(** One entry of the [To] map: the claimed groups leave the pool and
    get their weight, every other group is left as it is. *)
Lemma applyTo_spec mis eps pattern weight :
  let st := applyTo (mis, eps) (pattern, weight) in
  (∀ j, j ∈ st.1 ↔ j ∈ mis ∧ isClaimed pattern mis eps j = false) ∧
  (∀ j, st.2 !! j =
        if isClaimed pattern mis eps j
        then weightUpdate weight (uint32 (claimedTotal pattern mis eps))
               (groupWeight eps j) <$> eps !! j
        else eps !! j).
Proof.
  unfold applyTo. simpl.
  destruct (claimGroups_spec pattern mis eps) as (H1 & H2 & H3).
  split; [exact H1|]. intros j.
  rewrite assignWeights_lookup, H2, H3.
  by destruct (isClaimed pattern mis eps j).
Qed.

Lemma weightUpdate_Locality weight totalWeight ow ep :
  Locality (weightUpdate weight totalWeight ow ep) = Locality ep.
Proof. unfold weightUpdate. by destruct (fgt0 _). Qed.

(** A projection that [weightUpdate] leaves alone has the same values
    before and after an entry of the [To] map. *)
Lemma applyTo_field {B} (field : LocalityLbEndpoints → B) st entry :
  (∀ weight totalWeight ow ep,
     field (weightUpdate weight totalWeight ow ep) = field ep) →
  field <$> (applyTo st entry).2 = field <$> st.2.
Proof.
  intros Hf. destruct st as [mis eps], entry as [pattern weight].
  destruct (applyTo_spec mis eps pattern weight) as [_ H2].
  apply list_eq. intros j. rewrite !list_lookup_fmap, H2. simpl.
  destruct (isClaimed pattern mis eps j); [|done].
  destruct (eps !! j); simpl; [|done]. by rewrite Hf.
Qed.

Lemma foldl_applyTo_field {B} (field : LocalityLbEndpoints → B) st to :
  (∀ weight totalWeight ow ep,
     field (weightUpdate weight totalWeight ow ep) = field ep) →
  field <$> (foldl applyTo st to).2 = field <$> st.2.
Proof.
  intros Hf. revert st. induction to as [|e to IH]; intros st; simpl; [done|].
  by rewrite IH, applyTo_field.
Qed.

Lemma matchesTo_Locality pattern eps eps' k :
  Locality <$> eps' = Locality <$> eps →
  matchesTo pattern eps' k = matchesTo pattern eps k.
Proof.
  intros Heq. unfold matchesTo.
  assert (Hk : Locality <$> eps' !! k = Locality <$> eps !! k)
    by (by rewrite <- !list_lookup_fmap, Heq).
  destruct (eps' !! k), (eps !! k); simpl in Hk; try done.
  injection Hk as Hk. by rewrite Hk.
Qed.

(** The whole [To] map, from any state: the pool loses the groups that
    some pattern matches, and a group that was not in the pool to begin
    with, or is still in it at the end, has not been written. *)
Lemma foldl_applyTo_inv st to :
  let st' := foldl applyTo st to in
  (∀ j, j ∈ st'.1 ↔
        j ∈ st.1 ∧ ∀ p w, (p, w) ∈ to → matchesTo p st.2 j = false) ∧
  (∀ j, j ∉ st.1 ∨ j ∈ st'.1 → st'.2 !! j = st.2 !! j).
Proof.
  revert st. induction to as [|[pattern weight] to IH]; intros st; simpl.
  - split; [|done]. intros j. split; [|by intros [? _]].
    intros Hj. split; [done|]. intros p w Hin. by apply elem_of_nil in Hin.
  - destruct (IH (applyTo st (pattern, weight))) as [IH1 IH2].
    pose proof (applyTo_field Locality st (pattern, weight)
                  weightUpdate_Locality) as Hloc.
    destruct st as [mis eps].
    destruct (applyTo_spec mis eps pattern weight) as [H1 H2].
    simpl in *.
    assert (Hclaim : ∀ j, j ∈ mis →
              isClaimed pattern mis eps j = matchesTo pattern eps j).
    { intros j Hj. unfold isClaimed. by rewrite bool_decide_eq_true_2. }
    split.
    + intros j. rewrite IH1, H1. split.
      * intros [[Hj Hc] Hrest]. split; [done|]. intros p w Hin.
        apply elem_of_cons in Hin as [[= -> ->]|Hin].
        -- by rewrite <- Hclaim.
        -- rewrite <- (matchesTo_Locality p eps _ j Hloc). by eapply Hrest.
      * intros [Hj Hall]. split; [split; [done|]|].
        -- rewrite Hclaim by done. eapply Hall. by left.
        -- intros p w Hin. rewrite (matchesTo_Locality p eps _ j Hloc).
           eapply Hall. by right.
    + intros j Hj.
      assert (Hnot : isClaimed pattern mis eps j = false).
      { destruct Hj as [Hj|Hj].
        - unfold isClaimed. by rewrite bool_decide_eq_false_2.
        - apply IH1 in Hj as [Hj _]. by apply H1 in Hj as [_ ?]. }
      rewrite IH2.
      * by rewrite H2, Hnot.
      * destruct Hj as [Hj|Hj]; [left|by right].
        intros Hin. by apply H1 in Hin as [? _].
Qed.

(** *** Clearing the groups left in the pool *)

Lemma clearMisMatched_lookup mis eps j :
  clearMisMatched mis eps !! j
  = if decide (j ∈ mis) then clearLbEndpoints <$> eps !! j else eps !! j.
Proof.
  unfold clearMisMatched. case_decide as Hj.
  - apply foldr_alter_elem; [apply NoDup_elements|].
    by apply elem_of_elements.
  - apply foldr_alter_not_elem. by rewrite elem_of_elements.
Qed.

Lemma elem_of_allIndices eps j :
  j ∈ allIndices eps ↔ (j < length eps)%nat.
Proof.
  unfold allIndices. rewrite elem_of_list_to_set, elem_of_seq. lia.
Qed.

(** *** The body run for the matching rule *)

Lemma clearMisMatched_field {B} (field : LocalityLbEndpoints → B) mis eps :
  (∀ ep, field (clearLbEndpoints ep) = field ep) →
  field <$> clearMisMatched mis eps = field <$> eps.
Proof.
  intros Hf. apply list_eq. intros j.
  rewrite !list_lookup_fmap, clearMisMatched_lookup.
  case_decide; [|done]. destruct (eps !! j); simpl; [|done]. by rewrite Hf.
Qed.

Lemma distributeTo_Locality to eps :
  Locality <$> distributeTo to eps = Locality <$> eps.
Proof.
  unfold distributeTo. rewrite clearMisMatched_field by done.
  by rewrite foldl_applyTo_field by apply weightUpdate_Locality.
Qed.

Lemma distributeTo_length to eps :
  length (distributeTo to eps) = length eps.
Proof.
  rewrite <- (length_fmap Locality), distributeTo_Locality.
  apply length_fmap.
Qed.

(** A group that no pattern of the [To] map matches ends up cleared
    and otherwise as it was. *)
Lemma distributeTo_unmatched to eps i ep :
  eps !! i = Some ep →
  (∀ p w, (p, w) ∈ to → LocalityMatch (Locality ep) p = false) →
  distributeTo to eps !! i = Some (clearLbEndpoints ep).
Proof.
  intros Hi Hno. unfold distributeTo.
  destruct (foldl_applyTo_inv (allIndices eps, eps) to) as [H1 H2].
  simpl in H1, H2.
  assert (Hin : i ∈ (foldl applyTo (allIndices eps, eps) to).1).
  { apply H1. split.
    - apply elem_of_allIndices. by eapply lookup_lt_Some.
    - intros p w Hpw. unfold matchesTo. rewrite Hi. by eapply Hno. }
  rewrite clearMisMatched_lookup, decide_True by done.
  rewrite H2 by (by right). by rewrite Hi.
Qed.

(** With a first matching rule, [applyLocalityWeight] is the body of
    that rule on the groups of the load assignment. *)
Lemma applyLocalityWeight_matched locality la pre s post :
  Forall (λ r, ruleMatches locality r = false) pre →
  LocalityMatch (Some locality) (v1alpha3.Distribute.From s) = true →
  Endpoints (applyLocalityWeight locality la (Some (pre ++ Some s :: post)))
  = distributeTo (v1alpha3.Distribute.To s) (Endpoints la).
Proof.
  intros Hpre Hs. unfold applyLocalityWeight.
  rewrite firstMatch_skip by done. cbn [firstMatch]. by rewrite Hs.
Qed.

(** C4: once the first matching rule has been applied, every group
    whose locality none of the rule's [to] patterns matches has an
    empty member list and is otherwise as before; the localities and
    the number of groups of the load assignment are those of the
    input. *)
Theorem applyLocalityWeight_clears_unmatched locality la pre s post :
  let eps := Endpoints la in
  let eps' :=
    Endpoints (applyLocalityWeight locality la (Some (pre ++ Some s :: post))) in
  Forall (λ r, ruleMatches locality r = false) pre →
  LocalityMatch (Some locality) (v1alpha3.Distribute.From s) = true →
  length eps' = length eps ∧
  Locality <$> eps' = Locality <$> eps ∧
  ∀ i ep, eps !! i = Some ep →
    (∀ p w, (p, w) ∈ v1alpha3.Distribute.To s →
       LocalityMatch (Locality ep) p = false) →
    eps' !! i = Some (clearLbEndpoints ep) ∧
    LbEndpoints (clearLbEndpoints ep) = [].
Proof.
  intros eps eps' Hpre Hs.
  assert (Heps' : eps' = distributeTo (v1alpha3.Distribute.To s) eps)
    by (by apply applyLocalityWeight_matched).
  rewrite Heps'. split; [apply distributeTo_length|].
  split; [apply distributeTo_Locality|].
  intros i ep Hi Hno. split; [|done]. by apply distributeTo_unmatched.
Qed.

(** *** A pattern whose claimed groups weigh nothing *)

Lemma sumZ_zero (l : list Z) :
  Forall (λ x, 0 ≤ x) l → sumZ l = 0 → Forall (λ x, x = 0) l.
Proof.
  unfold sumZ. induction 1 as [|x l Hx Hl IH]; simpl; intros Hsum;
    [constructor|].
  assert (0 ≤ foldr Z.add 0 l).
  { clear -Hl. induction Hl; simpl; lia. }
  constructor; [lia|]. apply IH. lia.
Qed.

Lemma claimedTotal_zero pattern mis eps j :
  weightsInRange eps →
  claimedTotal pattern mis eps = 0 →
  isClaimed pattern mis eps j = true →
  groupWeight eps j = 0.
Proof.
  intros Hwf Hsum Hj. unfold claimedTotal in Hsum.
  apply sumZ_zero in Hsum.
  - rewrite Forall_forall in Hsum. apply Hsum.
    apply list_elem_of_fmap_2. by apply elem_of_claimedIndices.
  - apply Forall_forall. intros x Hx.
    apply list_elem_of_fmap in Hx as (k & -> & _).
    unfold groupWeight. destruct (eps !! k) as [ep|] eqn:Hk; simpl; [|done].
    by apply (Hwf k ep Hk).
Qed.

Lemma weightUpdate_zero weight ep :
  weightUpdate weight (uint32 0) 0 ep = ep.
Proof. reflexivity. Qed.

(** An entry whose claimed groups all have original weight 0 and total
    0 writes nothing. *)
Lemma applyTo_weightless mis eps pattern weight :
  claimedTotal pattern mis eps = 0 →
  (∀ j, isClaimed pattern mis eps j = true → groupWeight eps j = 0) →
  applyTo (mis, eps) (pattern, weight)
  = (mis ∖ list_to_set (claimedIndices pattern mis eps), eps).
Proof.
  intros Hsum Hzero.
  destruct (applyTo_spec mis eps pattern weight) as [H1 H2].
  destruct (applyTo (mis, eps) (pattern, weight)) as [mis' eps'].
  simpl in H1, H2. f_equal.
  - apply set_eq. intros j.
    rewrite H1, elem_of_difference, elem_of_list_to_set,
      elem_of_claimedIndices.
    destruct (isClaimed pattern mis eps j); intuition congruence.
  - apply list_eq. intros j. rewrite H2.
    destruct (isClaimed pattern mis eps j) eqn:Hj; [|done].
    rewrite Hsum, (Hzero j Hj).
    destruct (eps !! j); simpl; [|done]. by rewrite weightUpdate_zero.
Qed.

(** *** The weight of a claimed group *)

Lemma claimedTotal_ext pattern mis mis' eps eps' :
  length eps = length eps' →
  (∀ j, isClaimed pattern mis eps j = isClaimed pattern mis' eps' j) →
  (∀ j, isClaimed pattern mis eps j = true →
     groupWeight eps j = groupWeight eps' j) →
  claimedTotal pattern mis eps = claimedTotal pattern mis' eps'.
Proof.
  intros Hlen Hc Hw. unfold claimedTotal.
  assert (Hidx : claimedIndices pattern mis eps
                 = claimedIndices pattern mis' eps').
  { unfold claimedIndices. rewrite Hlen.
    apply filter_ext_elem. intros k _. by rewrite Hc. }
  rewrite <- Hidx. f_equal. apply list_fmap_ext. intros ? k Hk.
  apply list_elem_of_lookup_2, elem_of_claimedIndices in Hk. by apply Hw.
Qed.

(** The state in which an entry of the [To] map finds the groups it
    claims: they are as in the input. *)
Lemma foldl_applyTo_claim eps pre pattern :
  let st := foldl applyTo (allIndices eps, eps) pre in
  (∀ j, isClaimed pattern st.1 st.2 j = isClaimed pattern st.1 eps j) ∧
  (∀ j, j ∈ st.1 → st.2 !! j = eps !! j) ∧
  claimedTotal pattern st.1 st.2 = claimedTotal pattern st.1 eps.
Proof.
  simpl.
  pose proof (foldl_applyTo_field Locality (allIndices eps, eps) pre
                weightUpdate_Locality) as Hloc.
  destruct (foldl_applyTo_inv (allIndices eps, eps) pre) as [_ H2].
  simpl in Hloc, H2.
  set (st := foldl applyTo (allIndices eps, eps) pre) in *.
  assert (Hc : ∀ j, isClaimed pattern st.1 st.2 j
                    = isClaimed pattern st.1 eps j).
  { intros j. unfold isClaimed. by rewrite (matchesTo_Locality _ _ _ _ Hloc). }
  assert (Hsame : ∀ j, j ∈ st.1 → st.2 !! j = eps !! j).
  { intros j Hj. apply H2. by right. }
  split; [exact Hc|]. split; [exact Hsame|].
  apply claimedTotal_ext; [|exact Hc|].
  - rewrite <- (length_fmap Locality), Hloc. apply length_fmap.
  - intros j Hj. unfold isClaimed in Hj.
    apply andb_true_iff in Hj as [Hj _]. apply bool_decide_eq_true in Hj.
    unfold groupWeight. by rewrite Hsame.
Qed.

Lemma distributeTo_claimed eps pre pattern weight post j ep :
  let st := foldl applyTo (allIndices eps, eps) pre in
  eps !! j = Some ep →
  isClaimed pattern st.1 eps j = true →
  distributeTo (pre ++ (pattern, weight) :: post) eps !! j
  = Some (weightUpdate weight (uint32 (claimedTotal pattern st.1 eps))
            (originalWeight ep) ep).
Proof.
  intros st Hj Hclaimed. unfold distributeTo.
  rewrite foldl_app. cbn [foldl]. fold st.
  destruct (foldl_applyTo_claim eps pre pattern) as (Hc & Hsame & Htotal).
  fold st in Hc, Hsame, Htotal.
  assert (Hin : j ∈ st.1).
  { unfold isClaimed in Hclaimed.
    apply andb_true_iff in Hclaimed as [Hin _].
    by apply bool_decide_eq_true in Hin. }
  destruct st as [mis cur] eqn:Hst. simpl in *.
  destruct (applyTo_spec mis cur pattern weight) as [H1 H2].
  destruct (foldl_applyTo_inv (applyTo (mis, cur) (pattern, weight)) post)
    as [F1 F2].
  simpl in H1, H2, F1, F2.
  assert (Hout : j ∉ (applyTo (mis, cur) (pattern, weight)).1).
  { intros Hj'. apply H1 in Hj' as [_ Hj']. rewrite Hc in Hj'. congruence. }
  rewrite clearMisMatched_lookup, decide_False.
  - rewrite F2 by (by left). rewrite H2, Hc, Hclaimed, Htotal.
    unfold groupWeight. rewrite (Hsame j Hin), Hj. done.
  - intros Hj'. by apply F1 in Hj' as [? _].
Qed.

Lemma ceiling_spec a b :
  0 < b → (ceiling a b - 1) * b < a ≤ ceiling a b * b.
Proof.
  intros Hb. unfold ceiling.
  pose proof (Z.div_mod (a + b - 1) b ltac:(lia)) as Hdm.
  pose proof (Z.mod_pos_bound (a + b - 1) b Hb) as Hr.
  nia.
Qed.

Lemma ceiling_pos a b : 0 < b → (0 < ceiling a b ↔ 0 < a).
Proof. intros Hb. pose proof (ceiling_spec a b Hb). nia. Qed.

Lemma ceiling_le a b : 0 < b → 0 ≤ a → 0 ≤ ceiling a b ≤ a.
Proof. intros Hb Ha. pose proof (ceiling_spec a b Hb). nia. Qed.

(** What lines 112-117 do to a group when the product and the total
    are below [2^32]. *)
Lemma weightUpdate_exact weight total ow ep :
  0 ≤ ow * weight < 2 ^ 32 → 0 < total < 2 ^ 32 →
  weightUpdate weight (uint32 total) ow ep
  = if decide (0 < ceiling (ow * weight) total)
    then setWeight (ceiling (ow * weight) total) ep
    else ep.
Proof.
  intros Hnum Htot. unfold weightUpdate, uint32.
  rewrite !Z.mod_small by lia.
  unfold fdiv. rewrite decide_False by lia. simpl.
  pose proof (ceiling_pos (ow * weight) total ltac:(lia)) as Hpos.
  pose proof (ceiling_le (ow * weight) total ltac:(lia) ltac:(lia)) as Hle.
  destruct (decide (0 < ceiling (ow * weight) total)) as [Hc|Hc].
  - rewrite bool_decide_eq_true_2 by (by apply Hpos).
    rewrite Z.quot_1_r. fold (ceiling (ow * weight) total).
    unfold uint32. by rewrite Z.mod_small by lia.
  - rewrite bool_decide_eq_false_2; [done|]. by rewrite <- Hpos.
Qed.

(** The weight of a claimed group when the product and the total are
    below [2^32]. *)
Lemma distributeTo_weight eps pre pattern weight post j ep :
  let st := foldl applyTo (allIndices eps, eps) pre in
  let total := claimedTotal pattern st.1 eps in
  let value := ceiling (originalWeight ep * weight) total in
  eps !! j = Some ep →
  isClaimed pattern st.1 eps j = true →
  0 ≤ originalWeight ep → 0 ≤ weight →
  originalWeight ep * weight < 2 ^ 32 →
  0 < total < 2 ^ 32 →
  (value - 1) * total < originalWeight ep * weight ≤ value * total ∧
  LoadBalancingWeight
    <$> distributeTo (pre ++ (pattern, weight) :: post) eps !! j
  = Some (if decide (0 < value) then Some value
          else LoadBalancingWeight ep) ∧
  (0 < originalWeight ep * weight →
   ∃ v, LoadBalancingWeight
          <$> distributeTo (pre ++ (pattern, weight) :: post) eps !! j
        = Some (Some v) ∧ 1 ≤ v).
Proof.
  intros st total value Hj Hclaimed How Hw Hnum Htot.
  pose proof (ceiling_spec (originalWeight ep * weight) total ltac:(lia))
    as Hspec.
  pose proof (ceiling_pos (originalWeight ep * weight) total ltac:(lia))
    as Hpos.
  assert (Hres : LoadBalancingWeight
            <$> distributeTo (pre ++ (pattern, weight) :: post) eps !! j
          = Some (if decide (0 < value) then Some value
                  else LoadBalancingWeight ep)).
  { rewrite (distributeTo_claimed eps pre pattern weight post j ep Hj Hclaimed).
    fold st total. rewrite weightUpdate_exact by lia. fold value. simpl.
    by destruct (decide (0 < value)). }
  split; [exact Hspec|]. split; [exact Hres|].
  intros Hpnum. exists value. rewrite Hres.
  fold value in Hpos. rewrite decide_True by (by apply Hpos).
  split; [done|]. apply Hpos in Hpnum. lia.
Qed.

(** C2, with the bound that the 32-bit arithmetic of the code asks
    for: a group claimed by an entry [(pattern, weight)] of the first
    matching rule ends with the weight
    [ceiling (originalWeight * weight / total)], where [originalWeight]
    is the weight the group has in the input, or 1 when it has none, and
    [total] is the sum of the original weights of the groups the entry
    claims, provided [originalWeight * weight] and [total] are below
    [2^32] and [total > 0]; the weight is written only when that value
    is positive, and it is at least 1 when the numerator is positive. *)
Theorem applyLocalityWeight_weight locality la rulesBefore from pre pattern
    weight post rulesAfter j ep :
  let eps := Endpoints la in
  let st := foldl applyTo (allIndices eps, eps) pre in
  let total := claimedTotal pattern st.1 eps in
  let value := ceiling (originalWeight ep * weight) total in
  let result :=
    Endpoints
      (applyLocalityWeight locality la
         (Some (rulesBefore
                ++ Some (v1alpha3.Distribute.mk from
                           (pre ++ (pattern, weight) :: post))
                :: rulesAfter))) in
  Forall (λ r, ruleMatches locality r = false) rulesBefore →
  LocalityMatch (Some locality) from = true →
  eps !! j = Some ep →
  isClaimed pattern st.1 eps j = true →
  0 ≤ originalWeight ep → 0 ≤ weight →
  originalWeight ep * weight < 2 ^ 32 →
  0 < total < 2 ^ 32 →
  (value - 1) * total < originalWeight ep * weight ≤ value * total ∧
  LoadBalancingWeight <$> result !! j
  = Some (if decide (0 < value) then Some value
          else LoadBalancingWeight ep) ∧
  (0 < originalWeight ep * weight →
   ∃ v, LoadBalancingWeight <$> result !! j = Some (Some v) ∧ 1 ≤ v).
Proof.
  intros eps st total value result Hbefore Hfrom Hj Hclaimed How Hw Hnum Htot.
  unfold result.
  rewrite (applyLocalityWeight_matched locality la rulesBefore
             (v1alpha3.Distribute.mk from (pre ++ (pattern, weight) :: post))
             rulesAfter Hbefore Hfrom).
  cbn [v1alpha3.Distribute.To].
  by apply distributeTo_weight.
Qed.

Lemma claimedIndices_ext pattern mis mis' eps eps' :
  length eps = length eps' →
  (∀ j, isClaimed pattern mis eps j = isClaimed pattern mis' eps' j) →
  claimedIndices pattern mis eps = claimedIndices pattern mis' eps'.
Proof.
  intros Hlen Hc. unfold claimedIndices. rewrite Hlen.
  apply filter_ext_elem. intros k _. by rewrite Hc.
Qed.

(** C6: when the original weights of the groups that a [to] entry of
    the first matching rule claims add up to 0, the quotient evaluates
    to NaN for each of them, which is not a fault; the entry writes no
    weight and only takes the claimed groups out of the pool; the
    remaining entries are processed from that state, and the claimed
    groups come out of [applyLocalityWeight] as they went in. *)
Theorem applyLocalityWeight_zero_total locality la rulesBefore from pre
    pattern weight post rulesAfter :
  let eps := Endpoints la in
  let st := foldl applyTo (allIndices eps, eps) pre in
  let claimed := claimedIndices pattern st.1 eps in
  let st' := foldl applyTo (st.1 ∖ list_to_set claimed, st.2) post in
  let result :=
    Endpoints
      (applyLocalityWeight locality la
         (Some (rulesBefore
                ++ Some (v1alpha3.Distribute.mk from
                           (pre ++ (pattern, weight) :: post))
                :: rulesAfter))) in
  Forall (λ r, ruleMatches locality r = false) rulesBefore →
  LocalityMatch (Some locality) from = true →
  weightsInRange eps →
  claimedTotal pattern st.1 eps = 0 →
  (∀ j, j ∈ claimed →
     fdiv (uint32 (groupWeight eps j * weight))
          (uint32 (claimedTotal pattern st.1 eps)) = NaN) ∧
  applyTo st (pattern, weight) = (st.1 ∖ list_to_set claimed, st.2) ∧
  result = clearMisMatched st'.1 st'.2 ∧
  (∀ j ep, eps !! j = Some ep → j ∈ claimed → result !! j = Some ep).
Proof.
  intros eps st claimed st' result Hbefore Hfrom Hwf Hsum.
  destruct (foldl_applyTo_claim eps pre pattern) as (Hc & Hsame & Htotal).
  fold st in Hc, Hsame, Htotal.
  assert (Hzero : ∀ j, isClaimed pattern st.1 eps j = true →
                       groupWeight eps j = 0).
  { intros j Hj. by apply (claimedTotal_zero pattern st.1). }
  assert (Hlen : length st.2 = length eps).
  { unfold st.
    rewrite <- (length_fmap Locality),
      (foldl_applyTo_field Locality (allIndices eps, eps) pre
         weightUpdate_Locality).
    apply length_fmap. }
  assert (Hstep : applyTo st (pattern, weight)
                  = (st.1 ∖ list_to_set claimed, st.2)).
  { unfold claimed.
    rewrite <- (claimedIndices_ext pattern st.1 st.1 st.2 eps Hlen Hc).
    destruct st as [mis cur] eqn:Hst. simpl in *.
    apply applyTo_weightless.
    - by rewrite Htotal.
    - intros j Hj. rewrite <- (Hzero j) by (by rewrite <- Hc).
      unfold groupWeight. rewrite Hsame; [done|].
      unfold isClaimed in Hj. apply andb_true_iff in Hj as [Hj _].
      by apply bool_decide_eq_true in Hj. }
  assert (Hresult : result
            = distributeTo (pre ++ (pattern, weight) :: post) eps).
  { unfold result.
    by rewrite (applyLocalityWeight_matched locality la rulesBefore
                  (v1alpha3.Distribute.mk from (pre ++ (pattern, weight) :: post))
                  rulesAfter Hbefore Hfrom). }
  split; [|split; [exact Hstep|split]].
  - intros j Hj. apply elem_of_claimedIndices in Hj.
    by rewrite Hsum, (Hzero j Hj).
  - rewrite Hresult. unfold distributeTo.
    rewrite foldl_app. cbn [foldl]. fold st. by rewrite Hstep.
  - intros j ep Hj Hin. apply elem_of_claimedIndices in Hin.
    rewrite Hresult.
    rewrite (distributeTo_claimed eps pre pattern weight post j ep Hj Hin).
    fold st. rewrite Hsum.
    pose proof (Hzero j Hin) as Hw. unfold groupWeight in Hw.
    rewrite Hj in Hw. simpl in Hw. by rewrite Hw, weightUpdate_zero.
Qed.

(** *** The order of the entries of the [To] map *)

Lemma nonOverlapping_snoc eps to p w :
  nonOverlapping eps (to ++ [(p, w)]) →
  nonOverlapping eps to ∧ (p ∉ to.*1) ∧
  ∀ p' j, p' ∈ to.*1 → matchesTo p eps j = true →
    matchesTo p' eps j = false.
Proof.
  intros [Hnd Hdis]. rewrite fmap_app in Hnd, Hdis. simpl in Hnd, Hdis.
  apply NoDup_app in Hnd as (Hnd & Hnotin & _).
  assert (Hp : p ∉ to.*1).
  { intros Hin. apply (Hnotin p Hin). by left. }
  split; [split; [done|]|split; [done|]].
  - intros p1 p2 j H1 H2. apply Hdis; apply elem_of_app; left; done.
  - intros p' j Hp' Hm. destruct (matchesTo p' eps j) eqn:Hm'; [|done].
    destruct Hp.
    rewrite (Hdis p p' j); [done| | |done|done]; apply elem_of_app.
    + right. by left.
    + by left.
Qed.

(** Without overlap every entry claims the groups it matches in the
    input, whatever was processed before it. *)
Lemma foldl_applyTo_disjoint mis0 eps to :
  nonOverlapping eps to →
  let st := foldl applyTo (mis0, eps) to in
  ∀ j,
    (∀ p w, (p, w) ∈ to → isClaimed p mis0 eps j = true →
       st.2 !! j
       = weightUpdate w (uint32 (claimedTotal p mis0 eps))
           (groupWeight eps j) <$> eps !! j) ∧
    ((∀ p w, (p, w) ∈ to → isClaimed p mis0 eps j = false) →
     st.2 !! j = eps !! j).
Proof.
  induction to as [|[p w] to IH] using rev_ind; intros Hno; simpl.
  - intros j. split; [|done]. intros p w Hin. by apply elem_of_nil in Hin.
  - apply nonOverlapping_snoc in Hno as (Hno & Hp & Hdis).
    specialize (IH Hno). simpl in IH.
    rewrite foldl_app. cbn [foldl].
    pose proof (foldl_applyTo_field Locality (mis0, eps) to
                  weightUpdate_Locality) as Hloc.
    destruct (foldl_applyTo_inv (mis0, eps) to) as [I1 I2].
    simpl in Hloc, I1, I2.
    destruct (foldl applyTo (mis0, eps) to) as [mis cur]. simpl in *.
    destruct (applyTo_spec mis cur p w) as [_ H2]. simpl in H2.
    assert (Hc : ∀ j, isClaimed p mis cur j = isClaimed p mis0 eps j).
    { intros j. unfold isClaimed.
      rewrite (matchesTo_Locality _ _ _ _ Hloc).
      destruct (matchesTo p eps j) eqn:Hm; [|by rewrite !andb_false_r].
      rewrite !andb_true_r. apply bool_decide_ext. rewrite I1.
      split; [by intros [? _]|]. intros Hj. split; [done|].
      intros p' w' Hin. apply (Hdis p' j); [|done].
      by apply (list_elem_of_fmap_2 fst) in Hin. }
    assert (Hsame : ∀ j, isClaimed p mis0 eps j = true →
                         cur !! j = eps !! j).
    { intros j Hj. apply I2. right. rewrite <- Hc in Hj.
      unfold isClaimed in Hj. apply andb_true_iff in Hj as [Hj _].
      by apply bool_decide_eq_true in Hj. }
    assert (Htotal : claimedTotal p mis cur = claimedTotal p mis0 eps).
    { apply claimedTotal_ext; [|exact Hc|].
      - rewrite <- (length_fmap Locality), Hloc. apply length_fmap.
      - intros j Hj. rewrite Hc in Hj. unfold groupWeight.
        by rewrite Hsame. }
    intros j. destruct (IH j) as [IHin IHout].
    rewrite H2, Hc, Htotal. split.
    + intros p0 w0 Hin Hclaimed.
      apply elem_of_app in Hin as [Hin|Hin].
      * assert (Hnot : isClaimed p mis0 eps j = false).
        { unfold isClaimed in Hclaimed |- *.
          apply andb_true_iff in Hclaimed as [_ Hm].
          destruct (matchesTo p eps j) eqn:Hmp; [|apply andb_false_r].
          rewrite (Hdis p0 j) in Hm; [done| |done].
          by apply (list_elem_of_fmap_2 fst) in Hin. }
        rewrite Hnot. by apply IHin.
      * apply list_elem_of_singleton in Hin as [= -> ->].
        rewrite Hclaimed. unfold groupWeight. by rewrite Hsame.
    + intros Hnone.
      rewrite (Hnone p w) by (apply elem_of_app; right; by left).
      apply IHout. intros p0 w0 Hin. apply (Hnone p0 w0), elem_of_app.
      by left.
Qed.

Lemma nonOverlapping_Permutation eps to to' :
  to ≡ₚ to' → nonOverlapping eps to → nonOverlapping eps to'.
Proof.
  intros Hperm [Hnd Hdis]. split.
  - by rewrite <- Hperm.
  - intros p p' j Hp Hp'. rewrite <- Hperm in Hp, Hp'. by apply Hdis.
Qed.

Lemma distributeTo_Permutation eps to to' :
  nonOverlapping eps to → to ≡ₚ to' →
  distributeTo to eps = distributeTo to' eps.
Proof.
  intros Hno Hperm.
  pose proof (nonOverlapping_Permutation eps to to' Hperm Hno) as Hno'.
  unfold distributeTo.
  destruct (foldl_applyTo_inv (allIndices eps, eps) to) as [I1 _].
  destruct (foldl_applyTo_inv (allIndices eps, eps) to') as [I1' _].
  pose proof (foldl_applyTo_disjoint (allIndices eps) eps to Hno) as D.
  pose proof (foldl_applyTo_disjoint (allIndices eps) eps to' Hno') as D'.
  simpl in I1, I1', D, D'.
  assert (Hmis : (foldl applyTo (allIndices eps, eps) to).1
                 = (foldl applyTo (allIndices eps, eps) to').1).
  { apply set_eq. intros j. rewrite I1, I1'.
    by setoid_rewrite Hperm. }
  assert (Heps : (foldl applyTo (allIndices eps, eps) to).2
                 = (foldl applyTo (allIndices eps, eps) to').2).
  { apply list_eq. intros j.
    destruct (D j) as [Din Dout], (D' j) as [Din' Dout'].
    destruct (decide (Exists (λ e, isClaimed e.1 (allIndices eps) eps j = true) to))
      as [Hex|Hex].
    - apply Exists_exists in Hex as ([p w] & Hin & Hc). simpl in Hc.
      rewrite (Din p w Hin Hc).
      rewrite Hperm in Hin. by rewrite (Din' p w Hin Hc).
    - rewrite <- Forall_Exists_neg, Forall_forall in Hex.
      rewrite Dout.
      + rewrite Dout'; [done|]. intros p w Hin. rewrite <- Hperm in Hin.
        specialize (Hex _ Hin). simpl in Hex.
        by destruct (isClaimed p (allIndices eps) eps j).
      + intros p w Hin. specialize (Hex _ Hin). simpl in Hex.
        by destruct (isClaimed p (allIndices eps) eps j). }
  by rewrite Hmis, Heps.
Qed.

(** C5, for patterns that do not overlap: when no group of the load
    assignment is matched by two entries of the first matching rule's
    [To] map, the result of [applyLocalityWeight] is the same for all
    orders in which these entries are enumerated. *)
Theorem applyLocalityWeight_order locality la pre from to to' post :
  nonOverlapping (Endpoints la) to →
  to ≡ₚ to' →
  Forall (λ r, ruleMatches locality r = false) pre →
  LocalityMatch (Some locality) from = true →
  applyLocalityWeight locality la
    (Some (pre ++ Some (v1alpha3.Distribute.mk from to) :: post))
  = applyLocalityWeight locality la
      (Some (pre ++ Some (v1alpha3.Distribute.mk from to') :: post)).
Proof.
  intros Hno Hperm Hpre Hfrom. unfold applyLocalityWeight.
  rewrite !firstMatch_skip by done. cbn [firstMatch v1alpha3.Distribute.From].
  rewrite Hfrom. cbn [v1alpha3.Distribute.To].
  by rewrite (distributeTo_Permutation _ _ _ Hno Hperm).
Qed.

(** ** Further properties *)

(** *** What the two workers leave alone *)

Lemma weightUpdate_LbEndpoints weight totalWeight ow ep :
  LbEndpoints (weightUpdate weight totalWeight ow ep) = LbEndpoints ep.
Proof. unfold weightUpdate. by destruct (fgt0 _). Qed.

Lemma weightUpdate_Priority weight totalWeight ow ep :
  Priority (weightUpdate weight totalWeight ow ep) = Priority ep.
Proof. unfold weightUpdate. by destruct (fgt0 _). Qed.

(** A projection that neither [weightUpdate] nor [clearLbEndpoints]
    changes has the same values before and after
    [applyLocalityWeight]. *)
Lemma applyLocalityWeight_field {B} (field : LocalityLbEndpoints → B)
    locality la distribute :
  (∀ weight totalWeight ow ep,
     field (weightUpdate weight totalWeight ow ep) = field ep) →
  (∀ ep, field (clearLbEndpoints ep) = field ep) →
  field <$> Endpoints (applyLocalityWeight locality la distribute)
  = field <$> Endpoints la.
Proof.
  intros Hw Hc. unfold applyLocalityWeight.
  destruct distribute as [rules|]; [|done].
  destruct (firstMatch locality rules) as [s|]; [|done].
  cbn [Endpoints setEndpoints]. unfold distributeTo.
  rewrite clearMisMatched_field by done.
  by rewrite foldl_applyTo_field.
Qed.

Lemma alter_setPriority_field {B} (field : LocalityLbEndpoints → B) p
    (i : nat) (eps : list LocalityLbEndpoints) :
  (∀ q ep, field (setPriority q ep) = field ep) →
  field <$> alter (setPriority p) i eps = field <$> eps.
Proof.
  intros Hf. apply list_eq. intros j. rewrite !list_lookup_fmap.
  destruct (decide (i = j)) as [->|Hne].
  - rewrite list_lookup_alter_eq. destruct (eps !! j); simpl; [|done].
    by rewrite Hf.
  - by rewrite list_lookup_alter_ne.
Qed.

Lemma firstPass_field {B} (field : LocalityLbEndpoints → B)
    locality failover eps :
  (∀ q ep, field (setPriority q ep) = field ep) →
  field <$> (firstPass locality failover eps).1 = field <$> eps.
Proof.
  intros Hf. unfold firstPass. generalize (imap pair eps). intros l.
  generalize (∅ : gmap Z (list nat)). generalize eps.
  induction l as [|[i ep] l IH]; intros e pm; [done|].
  cbn [foldl]. unfold assignTier at 2. cbn [fst snd]. rewrite IH.
  by apply alter_setPriority_field.
Qed.

Lemma adjust_field {B} (field : LocalityLbEndpoints → B) ps pm eps :
  (∀ q ep, field (setPriority q ep) = field ep) →
  field <$> adjust ps pm eps = field <$> eps.
Proof.
  intros Hf. unfold adjust. generalize (imap pair ps). intros l. revert eps.
  induction l as [|[i p] l IH]; intros eps; [done|].
  cbn [foldl]. rewrite IH. unfold adjustPriority.
  case_decide; [|done].
  generalize (default [] (pm !! p)). intros idx. revert eps.
  induction idx as [|k idx IHidx]; intros eps; [done|].
  cbn [foldl]. rewrite IHidx. by apply alter_setPriority_field.
Qed.

Lemma applyLocalityFailover_field {B} (field : LocalityLbEndpoints → B)
    locality la failover :
  (∀ q ep, field (setPriority q ep) = field ep) →
  field <$> Endpoints (applyLocalityFailover locality la failover)
  = field <$> Endpoints la.
Proof.
  intros Hf. unfold applyLocalityFailover. cbn [Endpoints setEndpoints].
  by rewrite adjust_field, firstPass_field.
Qed.

(** X4: [applyLocalityFailover] writes priorities only: the name of the
    cluster and the localities, member lists and weights of the groups
    come out as they went in, for every list of failover settings. *)
Theorem applyLocalityFailover_frame locality la failover :
  let la' := applyLocalityFailover locality la failover in
  ClusterName la' = ClusterName la ∧
  Locality <$> Endpoints la' = Locality <$> Endpoints la ∧
  LbEndpoints <$> Endpoints la' = LbEndpoints <$> Endpoints la ∧
  LoadBalancingWeight <$> Endpoints la'
  = LoadBalancingWeight <$> Endpoints la.
Proof.
  intros la'. split; [done|].
  split; [|split]; by apply applyLocalityFailover_field.
Qed.

(** X3: a policy whose [Distribute] is not nil selects the weight
    distribution, also when failover is enabled and failover settings
    are present; the priorities of the groups are then left as they
    were. *)
Theorem ApplyLocalityLBSetting_distribute_first locality la rules failover
    enabled enableFailover :
  let localityLB := Some (v1alpha3.mkSetting (Some rules) failover enabled) in
  ApplyLocalityLBSetting (Some locality) (Some la) localityLB enableFailover
  = Some (applyLocalityWeight locality la (Some rules)) ∧
  Priority <$> Endpoints (applyLocalityWeight locality la (Some rules))
  = Priority <$> Endpoints la.
Proof.
  intros localityLB. split; [done|].
  apply applyLocalityWeight_field; [apply weightUpdate_Priority|done].
Qed.

(** The cluster name and the list of localities after
    [ApplyLocalityLBSetting]. *)
Lemma ApplyLocalityLBSetting_Locality locality la localityLB enableFailover :
  ∃ la',
    ApplyLocalityLBSetting locality (Some la) localityLB enableFailover
    = Some la' ∧
    ClusterName la' = ClusterName la ∧
    Locality <$> Endpoints la' = Locality <$> Endpoints la.
Proof.
  unfold ApplyLocalityLBSetting. destruct locality as [loc|].
  - destruct (v1alpha3.GetDistribute localityLB) as [rules|].
    + eexists. split; [done|]. split.
      * unfold applyLocalityWeight. by destruct (firstMatch loc rules).
      * apply applyLocalityWeight_field; [apply weightUpdate_Locality|done].
    + destruct enableFailover.
      * eexists. split; [done|]. split; [done|].
        by apply applyLocalityFailover_field.
      * by exists la.
  - by exists la.
Qed.

(** X2: whatever the policy, [ApplyLocalityLBSetting] returns a load
    assignment with the same cluster name and the same groups in the
    same order, locality by locality: no group is added, removed or
    moved. *)
Theorem ApplyLocalityLBSetting_keeps_groups locality la localityLB
    enableFailover :
  ∃ la',
    ApplyLocalityLBSetting locality (Some la) localityLB enableFailover
    = Some la' ∧
    ClusterName la' = ClusterName la ∧
    length (Endpoints la') = length (Endpoints la) ∧
    Locality <$> Endpoints la' = Locality <$> Endpoints la.
Proof.
  destruct (ApplyLocalityLBSetting_Locality locality la localityLB
              enableFailover) as (la' & Hla' & Hname & Hloc).
  exists la'. split; [exact Hla'|]. split; [exact Hname|].
  split; [|exact Hloc].
  rewrite <- (length_fmap Locality), Hloc. apply length_fmap.
Qed.

(** X5: a load assignment without groups comes back unchanged for every
    caller locality, policy and failover flag. *)
Theorem ApplyLocalityLBSetting_no_groups locality name localityLB
    enableFailover :
  ApplyLocalityLBSetting locality (Some (mkAssignment name [])) localityLB
    enableFailover
  = Some (mkAssignment name []).
Proof.
  destruct (ApplyLocalityLBSetting_Locality locality
              (mkAssignment name []) localityLB enableFailover)
    as (la' & -> & Hname & Hloc).
  destruct la' as [name' eps']. simpl in *. subst name'.
  by destruct eps'.
Qed.

(** *** Failover settings that are not consulted *)

Lemma scanFailover_skip locality epLocality pre rest priority :
  Forall (λ f, v1alpha3.Failover.From f ≠ Region locality) pre →
  scanFailover locality epLocality (pre ++ rest) priority
  = scanFailover locality epLocality rest priority.
Proof.
  induction 1 as [|f pre Hf _ IH]; [done|].
  cbn [app scanFailover]. by rewrite decide_False.
Qed.

Lemma applyLocalityFailover_ext locality la failover failover' :
  (∀ ep, tier locality failover ep = tier locality failover' ep) →
  applyLocalityFailover locality la failover
  = applyLocalityFailover locality la failover'.
Proof.
  intros Htier. unfold applyLocalityFailover.
  assert (Hfirst : firstPass locality failover (Endpoints la)
                   = firstPass locality failover' (Endpoints la)).
  { unfold firstPass. generalize (imap pair (Endpoints la)). intros l.
    generalize (Endpoints la, (∅ : gmap Z (list nat))).
    induction l as [|[i ep] l IH]; intros acc; [done|].
    cbn [foldl]. rewrite <- IH. f_equal.
    unfold assignTier. by rewrite Htier. }
  by rewrite Hfirst.
Qed.

(** X8: of the failover settings only the first one whose [From] is the
    caller's region counts: the settings before it, which are for other
    regions, and all settings after it can be dropped without changing
    the result; and settings that are all for other regions act as no
    settings at all. *)
Theorem applyLocalityFailover_first_setting locality la :
  (∀ pre fs post,
     Forall (λ f, v1alpha3.Failover.From f ≠ Region locality) pre →
     v1alpha3.Failover.From fs = Region locality →
     applyLocalityFailover locality la (pre ++ fs :: post)
     = applyLocalityFailover locality la [fs]) ∧
  (∀ failover,
     Forall (λ f, v1alpha3.Failover.From f ≠ Region locality) failover →
     applyLocalityFailover locality la failover
     = applyLocalityFailover locality la []).
Proof.
  split.
  - intros pre fs post Hpre Hfs. apply applyLocalityFailover_ext.
    intros ep. unfold tier. case_decide; [|done].
    rewrite scanFailover_skip by done.
    cbn [scanFailover]. by rewrite !decide_True by done.
  - intros failover Hall. apply applyLocalityFailover_ext.
    intros ep. unfold tier. case_decide; [|done].
    rewrite <- (app_nil_r failover). by rewrite scanFailover_skip.
Qed.

(** *** Ranks and order *)

Lemma rank_mono (t1 t2 : Z) (ts : gset Z) :
  t1 ≤ t2 → (rank t1 ts ≤ rank t2 ts)%nat.
Proof.
  intros Hle. unfold rank. apply subseteq_size.
  intros x Hx. apply elem_of_filter in Hx as [Hlt Hin].
  apply elem_of_filter. split; [lia|done].
Qed.

Lemma rank_strict (t1 t2 : Z) (ts : gset Z) :
  t1 ∈ ts → t1 < t2 → (rank t1 ts < rank t2 ts)%nat.
Proof.
  intros Hin Hlt. unfold rank. apply subset_size. split.
  - intros x Hx. apply elem_of_filter in Hx as [Hx Hxin].
    apply elem_of_filter. split; [lia|done].
  - intros Hsub.
    assert (Ht : t1 ∈ filter (λ x, x < t2) ts) by (by apply elem_of_filter).
    apply Hsub, elem_of_filter in Ht as [Ht _]. lia.
Qed.

Lemma rank_le_self (t : Z) (ts : gset Z) :
  (∀ x, x ∈ ts → 0 ≤ x) → 0 ≤ t → Z.of_nat (rank t ts) ≤ t.
Proof.
  intros Hnonneg Ht. unfold rank.
  set (below := list_to_set (Z.of_nat <$> seq 0 (Z.to_nat t)) : gset Z).
  assert (Hsize : size below = Z.to_nat t).
  { unfold below. rewrite size_list_to_set.
    - by rewrite length_fmap, length_seq.
    - apply NoDup_fmap_2; [apply _|apply NoDup_seq]. }
  assert (Hsub : filter (λ x, x < t) ts ⊆ below).
  { intros x Hx. apply elem_of_filter in Hx as [Hlt Hin].
    apply elem_of_list_to_set, list_elem_of_fmap.
    exists (Z.to_nat x). specialize (Hnonneg x Hin).
    split; [lia|]. apply elem_of_seq. lia. }
  apply subseteq_size in Hsub. lia.
Qed.

Section ranked.

(** As before: [util.LbPriority] returns 0, 1, 2 or 3. *)
Hypothesis LbPriority_bounds :
  ∀ proxy ep, 0 ≤ LbPriority proxy ep ≤ 3.

(** [applyLocalityFailover] as a map over the groups. *)
Lemma applyLocalityFailover_Endpoints locality failover la :
  Endpoints (applyLocalityFailover locality la failover)
  = (λ ep, setPriority
             (Z.of_nat (rank (tier locality failover ep)
                             (tiers locality failover (Endpoints la)))) ep)
    <$> Endpoints la.
Proof.
  apply list_eq. intros i. rewrite list_lookup_fmap.
  destruct (Endpoints la !! i) as [ep|] eqn:Hi.
  - by rewrite (applyLocalityFailover_lookup LbPriority_bounds _ _ _ _ _ Hi).
  - apply lookup_ge_None. rewrite applyLocalityFailover_length.
    by apply lookup_ge_None.
Qed.

Lemma applyLocalityFailover_same_groups locality failover la la2 :
  ClusterName la2 = ClusterName la →
  setPriority 0 <$> Endpoints la2 = setPriority 0 <$> Endpoints la →
  applyLocalityFailover locality la2 failover
  = applyLocalityFailover locality la failover.
Proof.
  intros Hname Hsame.
  assert (Heq : ∀ x y : ClusterLoadAssignment,
            ClusterName x = ClusterName y → Endpoints x = Endpoints y → x = y).
  { intros [] [] ??. simpl in *. by subst. }
  apply Heq; [done|].
  assert (Htiers : tiers locality failover (Endpoints la2)
                   = tiers locality failover (Endpoints la)).
  { unfold tiers. f_equal.
    change (tier locality failover)
      with (tier locality failover ∘ setPriority 0).
    by rewrite !list_fmap_compose, Hsame. }
  rewrite !applyLocalityFailover_Endpoints, Htiers.
  set (ts := tiers locality failover (Endpoints la)).
  change (λ ep, setPriority (Z.of_nat (rank (tier locality failover ep) ts)) ep)
    with ((λ ep, setPriority (Z.of_nat (rank (tier locality failover ep) ts)) ep)
          ∘ setPriority 0).
  by rewrite !list_fmap_compose, Hsame.
Qed.

(** X6: the result of [applyLocalityFailover] does not depend on the
    priorities that the groups come in with, and applying it a second
    time changes nothing. *)
Theorem applyLocalityFailover_idempotent locality failover la :
  (∀ la2,
     ClusterName la2 = ClusterName la →
     setPriority 0 <$> Endpoints la2 = setPriority 0 <$> Endpoints la →
     applyLocalityFailover locality la2 failover
     = applyLocalityFailover locality la failover) ∧
  applyLocalityFailover locality
    (applyLocalityFailover locality la failover) failover
  = applyLocalityFailover locality la failover.
Proof.
  split.
  - intros la2. apply applyLocalityFailover_same_groups.
  - apply applyLocalityFailover_same_groups; [done|].
    rewrite applyLocalityFailover_Endpoints, <- list_fmap_compose.
    by apply list_fmap_ext.
Qed.

(** X7: compaction keeps the order of the tiers and never raises a
    priority: of two groups the one with the smaller tier gets the
    smaller priority, and the priority of a group is between 0 and its
    tier, hence at most 4. *)
Theorem applyLocalityFailover_order locality failover la i j ep1 ep2 :
  Endpoints la !! i = Some ep1 →
  Endpoints la !! j = Some ep2 →
  ∃ p1 p2,
    Priority <$> Endpoints (applyLocalityFailover locality la failover) !! i
    = Some p1 ∧
    Priority <$> Endpoints (applyLocalityFailover locality la failover) !! j
    = Some p2 ∧
    (tier locality failover ep1 < tier locality failover ep2 ↔ p1 < p2) ∧
    0 ≤ p1 ≤ tier locality failover ep1 ∧
    tier locality failover ep1 ≤ 4.
Proof.
  intros Hi Hj.
  set (ts := tiers locality failover (Endpoints la)).
  assert (Hmem : ∀ k ep, Endpoints la !! k = Some ep →
                         tier locality failover ep ∈ ts).
  { intros k ep Hk. unfold ts, tiers.
    apply elem_of_list_to_set, list_elem_of_fmap_2, list_elem_of_lookup.
    by exists k. }
  assert (Hnonneg : ∀ x, x ∈ ts → 0 ≤ x).
  { intros x Hx. unfold ts, tiers in Hx.
    apply elem_of_list_to_set, list_elem_of_fmap in Hx as (ep & -> & _).
    apply (tier_range LbPriority_bounds). }
  exists (Z.of_nat (rank (tier locality failover ep1) ts)),
         (Z.of_nat (rank (tier locality failover ep2) ts)).
  rewrite (applyLocalityFailover_lookup LbPriority_bounds _ _ _ _ _ Hi).
  rewrite (applyLocalityFailover_lookup LbPriority_bounds _ _ _ _ _ Hj).
  fold ts. split; [done|]. split; [done|].
  pose proof (tier_range LbPriority_bounds locality failover ep1) as Hr1.
  split; [|split; [|lia]].
  - split.
    + intros Hlt.
      pose proof (rank_strict _ _ ts (Hmem i ep1 Hi) Hlt). lia.
    + intros Hlt.
      destruct (decide (tier locality failover ep1 < tier locality failover ep2))
        as [|Hge]; [done|].
      pose proof (rank_mono (tier locality failover ep2)
                    (tier locality failover ep1) ts ltac:(lia)). lia.
  - split; [lia|]. apply rank_le_self; [done|lia].
Qed.

End ranked.

(** *** Which groups keep their members *)

Lemma distributeTo_LbEndpoints to eps i ep :
  eps !! i = Some ep →
  LbEndpoints <$> distributeTo to eps !! i
  = Some (if decide (Exists (λ e, LocalityMatch (Locality ep) e.1 = true) to)
          then LbEndpoints ep else []).
Proof.
  intros Hi. case_decide as Hex.
  - apply Exists_exists in Hex as ([p w] & Hin & Hm). simpl in Hm.
    unfold distributeTo.
    destruct (foldl_applyTo_inv (allIndices eps, eps) to) as [H1 _].
    simpl in H1.
    rewrite clearMisMatched_lookup, decide_False.
    + rewrite <- list_lookup_fmap.
      rewrite (foldl_applyTo_field LbEndpoints (allIndices eps, eps) to
                 weightUpdate_LbEndpoints).
      simpl. by rewrite list_lookup_fmap, Hi.
    + intros Hmis. apply H1 in Hmis as [_ Hnone].
      specialize (Hnone p w Hin). unfold matchesTo in Hnone.
      rewrite Hi in Hnone. congruence.
  - rewrite (distributeTo_unmatched to eps i ep Hi); [done|].
    intros p w Hin. destruct (LocalityMatch (Locality ep) p) eqn:Hm; [|done].
    destruct Hex. apply Exists_exists. by exists (p, w).
Qed.

(** X9: under the first matching rule a group keeps its member list
    exactly when some [to] pattern of the rule matches its locality, and
    has it emptied otherwise; its priority is not touched either way. *)
Theorem applyLocalityWeight_members locality la pre s post i ep :
  let result :=
    Endpoints (applyLocalityWeight locality la (Some (pre ++ Some s :: post))) in
  Forall (λ r, ruleMatches locality r = false) pre →
  LocalityMatch (Some locality) (v1alpha3.Distribute.From s) = true →
  Endpoints la !! i = Some ep →
  LbEndpoints <$> result !! i
  = Some (if decide (Exists (λ e, LocalityMatch (Locality ep) e.1 = true)
                       (v1alpha3.Distribute.To s))
          then LbEndpoints ep else []) ∧
  Priority <$> result !! i = Some (Priority ep).
Proof.
  intros result Hpre Hs Hi. unfold result.
  rewrite (applyLocalityWeight_matched locality la pre s post Hpre Hs).
  split; [by apply distributeTo_LbEndpoints|].
  rewrite <- list_lookup_fmap. unfold distributeTo.
  rewrite (clearMisMatched_field Priority) by done.
  rewrite (foldl_applyTo_field Priority) by apply weightUpdate_Priority.
  simpl. by rewrite list_lookup_fmap, Hi.
Qed.

(** X10: which groups are emptied does not depend on the order in which
    the entries of the [To] map are enumerated, whether or not the
    patterns overlap. *)
Theorem applyLocalityWeight_members_order locality la pre from to to' post :
  to ≡ₚ to' →
  Forall (λ r, ruleMatches locality r = false) pre →
  LocalityMatch (Some locality) from = true →
  LbEndpoints
    <$> Endpoints (applyLocalityWeight locality la
                     (Some (pre ++ Some (v1alpha3.Distribute.mk from to) :: post)))
  = LbEndpoints
      <$> Endpoints (applyLocalityWeight locality la
                       (Some (pre ++ Some (v1alpha3.Distribute.mk from to') :: post))).
Proof.
  intros Hperm Hpre Hfrom.
  rewrite !applyLocalityWeight_matched by done.
  cbn [v1alpha3.Distribute.To].
  apply list_eq. intros i. rewrite !list_lookup_fmap.
  destruct (Endpoints la !! i) as [ep|] eqn:Hi.
  - rewrite !(distributeTo_LbEndpoints _ _ _ _ Hi).
    f_equal. apply decide_ext. by rewrite Hperm.
  - assert (Hnone : ∀ l, distributeTo l (Endpoints la) !! i = None).
    { intros l. apply lookup_ge_None. rewrite distributeTo_length.
      by apply lookup_ge_None. }
    by rewrite !Hnone.
Qed.

(** X14: a policy with distribution rules of which none matches the
    caller leaves the load assignment as it is, also when failover is
    enabled: such a caller gets neither weights nor priorities. *)
Theorem ApplyLocalityLBSetting_no_matching_rule locality la rules failover
    enabled enableFailover :
  Forall (λ r, ruleMatches locality r = false) rules →
  ApplyLocalityLBSetting (Some locality) (Some la)
    (Some (v1alpha3.mkSetting (Some rules) failover enabled)) enableFailover
  = Some la.
Proof.
  intros Hnone. unfold ApplyLocalityLBSetting.
  cbn [v1alpha3.GetDistribute v1alpha3.Distribute].
  unfold applyLocalityWeight. by rewrite firstMatch_none.
Qed.

(** *** The weights of the groups that one entry claims *)

Lemma sumZ_ceiling (T : Z) (l : list Z) :
  0 < T →
  sumZ l ≤ T * sumZ ((λ a, ceiling a T) <$> l)
  ∧ T * sumZ ((λ a, ceiling a T) <$> l)
    ≤ sumZ l + (T - 1) * Z.of_nat (length l).
Proof.
  intros HT. unfold sumZ.
  induction l as [|a l [IH1 IH2]]; [simpl; lia|].
  cbn [fmap list_fmap foldr length].
  pose proof (ceiling_spec a T HT). nia.
Qed.

Lemma sumZ_scale {A} (f : A → Z) (w : Z) (l : list A) :
  sumZ ((λ x, f x * w) <$> l) = sumZ (f <$> l) * w.
Proof.
  unfold sumZ. induction l as [|x l IH]; [done|].
  cbn [fmap list_fmap foldr]. cbn [fmap list_fmap] in IH. rewrite IH. lia.
Qed.

Lemma isClaimed_lookup pattern mis eps j :
  isClaimed pattern mis eps j = true → is_Some (eps !! j).
Proof.
  unfold isClaimed, matchesTo. intros Hj.
  apply andb_true_iff in Hj as [_ Hj]. by destruct (eps !! j).
Qed.

(** Within 32 bits and for a positive rule weight, every group that the
    entry claims ends with the rounded-up share as its weight. *)
Lemma distributeTo_groupWeight eps pre pattern weight post j :
  let st := foldl applyTo (allIndices eps, eps) pre in
  let total := claimedTotal pattern st.1 eps in
  weightsInRange eps → 0 < weight → 0 < total < 2 ^ 32 →
  isClaimed pattern st.1 eps j = true →
  groupWeight eps j * weight < 2 ^ 32 →
  groupWeight (distributeTo (pre ++ (pattern, weight) :: post) eps) j
  = ceiling (groupWeight eps j * weight) total.
Proof.
  intros st total Hwf Hw Htot Hj Hnum.
  destruct (isClaimed_lookup _ _ _ _ Hj) as [ep Hep].
  pose proof (Hwf j ep Hep) as How.
  unfold groupWeight in Hnum |- *. rewrite Hep in Hnum |- *. simpl in Hnum.
  rewrite (distributeTo_claimed eps pre pattern weight post j ep Hep Hj).
  fold st total. simpl.
  rewrite weightUpdate_exact by lia.
  pose proof (ceiling_pos (originalWeight ep * weight) total ltac:(lia)) as Hpos.
  pose proof (ceiling_le (originalWeight ep * weight) total ltac:(lia)
                ltac:(nia)) as Hle.
  case_decide as Hc; [done|].
  assert (Hzero : originalWeight ep * weight = 0).
  { destruct (decide (0 < originalWeight ep * weight)) as [Hp|Hp].
    - apply Hpos in Hp. lia.
    - nia. }
  nia.
Qed.

(** X11: within 32 bits the weights that one entry [(pattern, weight)]
    hands out add up to at least [weight] and to less than [weight] plus
    the number of groups it claims: rounding up never loses a share and
    adds less than one unit per group. *)
Theorem applyLocalityWeight_weight_sum locality la rulesBefore from pre
    pattern weight post rulesAfter :
  let eps := Endpoints la in
  let st := foldl applyTo (allIndices eps, eps) pre in
  let claimed := claimedIndices pattern st.1 eps in
  let total := claimedTotal pattern st.1 eps in
  let result :=
    Endpoints
      (applyLocalityWeight locality la
         (Some (rulesBefore
                ++ Some (v1alpha3.Distribute.mk from
                           (pre ++ (pattern, weight) :: post))
                :: rulesAfter))) in
  Forall (λ r, ruleMatches locality r = false) rulesBefore →
  LocalityMatch (Some locality) from = true →
  weightsInRange eps →
  0 < weight →
  0 < total < 2 ^ 32 →
  (∀ j, j ∈ claimed → groupWeight eps j * weight < 2 ^ 32) →
  weight ≤ sumZ (groupWeight result <$> claimed)
  < weight + Z.of_nat (length claimed).
Proof.
  intros eps st claimed total result Hbefore Hfrom Hwf Hw Htot Hnum.
  assert (Hresult : result
            = distributeTo (pre ++ (pattern, weight) :: post) eps).
  { unfold result.
    by rewrite (applyLocalityWeight_matched locality la rulesBefore
                  (v1alpha3.Distribute.mk from (pre ++ (pattern, weight) :: post))
                  rulesAfter Hbefore Hfrom). }
  assert (Hsum : sumZ (groupWeight result <$> claimed)
                 = sumZ ((λ a, ceiling a total)
                           <$> ((λ j, groupWeight eps j * weight) <$> claimed))).
  { rewrite <- list_fmap_compose. f_equal.
    apply list_fmap_ext. intros ? j Hin.
    apply list_elem_of_lookup_2 in Hin.
    rewrite Hresult. simpl.
    apply distributeTo_groupWeight; try done.
    - by apply elem_of_claimedIndices.
    - by apply Hnum. }
  pose proof (sumZ_ceiling total
                ((λ j, groupWeight eps j * weight) <$> claimed) ltac:(lia))
    as [Hlow Hhigh].
  rewrite sumZ_scale in Hlow, Hhigh. rewrite length_fmap in Hhigh.
  change (sumZ (groupWeight eps <$> claimed)) with total in Hlow, Hhigh.
  rewrite Hsum.
  assert (Hn : 0 < Z.of_nat (length claimed)).
  { destruct claimed as [|c cs] eqn:Hc; [|simpl; lia].
    unfold total, claimedTotal in Htot. fold st claimed in Htot.
    rewrite Hc in Htot. simpl in Htot. lia. }
  nia.
Qed.

(** X12: within 32 bits, of two groups that the same entry claims the
    one with the larger original weight gets the larger or equal new
    weight; equal original weights give equal new weights. *)
Theorem applyLocalityWeight_weight_monotone locality la rulesBefore from pre
    pattern weight post rulesAfter j1 j2 :
  let eps := Endpoints la in
  let st := foldl applyTo (allIndices eps, eps) pre in
  let total := claimedTotal pattern st.1 eps in
  let result :=
    Endpoints
      (applyLocalityWeight locality la
         (Some (rulesBefore
                ++ Some (v1alpha3.Distribute.mk from
                           (pre ++ (pattern, weight) :: post))
                :: rulesAfter))) in
  Forall (λ r, ruleMatches locality r = false) rulesBefore →
  LocalityMatch (Some locality) from = true →
  weightsInRange eps →
  0 < weight →
  0 < total < 2 ^ 32 →
  isClaimed pattern st.1 eps j1 = true →
  isClaimed pattern st.1 eps j2 = true →
  groupWeight eps j1 ≤ groupWeight eps j2 →
  groupWeight eps j2 * weight < 2 ^ 32 →
  groupWeight result j1 ≤ groupWeight result j2.
Proof.
  intros eps st total result Hbefore Hfrom Hwf Hw Htot Hj1 Hj2 Hle Hnum.
  assert (Hresult : result
            = distributeTo (pre ++ (pattern, weight) :: post) eps).
  { unfold result.
    by rewrite (applyLocalityWeight_matched locality la rulesBefore
                  (v1alpha3.Distribute.mk from (pre ++ (pattern, weight) :: post))
                  rulesAfter Hbefore Hfrom). }
  rewrite Hresult.
  rewrite !distributeTo_groupWeight; try done; [|nia].
  fold st total. unfold ceiling.
  apply Z.div_le_mono; [lia|nia].
Qed.

(** *** The order in which the internal maps are ranged over *)

Lemma foldl_assignWeight_lookup weight totalWeight (l : list (nat * Z))
    (eps : list LocalityLbEndpoints) j :
  NoDup l.*1 →
  foldl (λ e x, assignWeight weight totalWeight x e) eps l !! j
  = match (list_to_map l : gmap nat Z) !! j with
    | Some ow => weightUpdate weight totalWeight ow <$> eps !! j
    | None => eps !! j
    end.
Proof.
  revert eps. induction l as [|[k ow] l IH]; intros eps Hnd; [done|].
  rewrite fmap_cons in Hnd. apply NoDup_cons in Hnd as [Hk Hnd].
  cbn [foldl]. rewrite IH by done.
  rewrite assignWeight_alter, list_to_map_cons.
  destruct (decide (k = j)) as [->|Hne].
  - rewrite lookup_insert_eq, not_elem_of_list_to_map_1 by done.
    apply list_lookup_alter_eq.
  - rewrite lookup_insert_ne, list_lookup_alter_ne by done. done.
Qed.

(** X13: the three loops that range over a map of the function's own
    ([destLocMap] at line 111, [misMatched] at line 122, the keys of
    [priorityMap] at line 165) give the same result for every order in
    which the map is enumerated. *)
Theorem internal_map_order weight totalWeight (destLocMap : gmap nat Z)
    (misMatched : gset nat) (priorityMap : gmap Z (list nat))
    (eps : list LocalityLbEndpoints) l1 l2 l3 :
  l1 ≡ₚ map_to_list destLocMap →
  l2 ≡ₚ elements misMatched →
  l3 ≡ₚ (map_to_list priorityMap).*1 →
  foldl (λ e x, assignWeight weight totalWeight x e) eps l1
  = assignWeights weight totalWeight destLocMap eps ∧
  foldl (λ e i, alter clearLbEndpoints i e) eps l2
  = clearMisMatched misMatched eps ∧
  merge_sort Z.le l3 = sortedPriorities priorityMap.
Proof.
  intros H1 H2 H3. split; [|split].
  - assert (Hnd : NoDup l1.*1).
    { rewrite H1. apply NoDup_fst_map_to_list. }
    apply list_eq. intros j.
    rewrite foldl_assignWeight_lookup, assignWeights_lookup by done.
    rewrite (list_to_map_proper l1 (map_to_list destLocMap)) by done.
    by rewrite list_to_map_to_list.
  - assert (Hnd : NoDup l2) by (rewrite H2; apply NoDup_elements).
    apply list_eq. intros j. rewrite clearMisMatched_lookup.
    case_decide as Hj.
    + apply foldl_alter_elem; [done|]. by rewrite H2, elem_of_elements.
    + apply foldl_alter_not_elem. by rewrite H2, elem_of_elements.
  - unfold sortedPriorities.
    apply (Sorted_unique Z.le); try apply Sorted_merge_sort; try apply _.
    by rewrite !merge_sort_Permutation.
Qed.

(** *** When locality load balancing is off *)

(** X1: [GetLocalityLbSetting] returns nil exactly when the destination
    policy sets [enabled] to false, or no mesh policy exists and the
    destination policy, if there is one, does not set [enabled]; in all
    other cases it returns the destination policy if there is one and
    the mesh policy otherwise. *)
Theorem GetLocalityLbSetting_disabled mesh destrule :
  (GetLocalityLbSetting mesh destrule = None ↔
     (∃ d, destrule = Some d ∧ v1alpha3.Enabled d = Some false) ∨
     (mesh = None ∧
      ∀ d, destrule = Some d → v1alpha3.Enabled d = None)) ∧
  (GetLocalityLbSetting mesh destrule = None ∨
   (GetLocalityLbSetting mesh destrule = destrule ∧ destrule ≠ None) ∨
   (GetLocalityLbSetting mesh destrule = mesh ∧ destrule = None)).
Proof.
  unfold GetLocalityLbSetting.
  destruct destrule as [d|].
  - destruct (v1alpha3.Enabled d) as [[|]|] eqn:He; cbn [negb].
    + (* enabled = true *)
      split; [|by right; left]. split; [done|].
      intros [(d' & [= <-] & Hd)|[_ Hd]]; [congruence|].
      specialize (Hd d eq_refl). congruence.
    + (* enabled = false *)
      split; [|by left]. split; [|done].
      intros _. left. by exists d.
    + (* enabled not set: the mesh policy decides *)
      destruct mesh as [m|].
      * rewrite bool_decide_eq_true_2 by done. cbn [negb].
        split; [|by right; left]. split; [done|].
        intros [(d' & [= <-] & Hd)|[Hm _]]; congruence.
      * rewrite bool_decide_eq_false_2 by (by intros []). cbn [negb].
        split; [|by left]. split; [|done].
        intros _. right. split; [done|]. by intros d' [= <-].
  - destruct mesh as [m|].
    + rewrite bool_decide_eq_true_2 by done. cbn [negb].
      split; [|by right; right]. split; [done|].
      intros [(d & Hd & _)|[Hm _]]; congruence.
    + rewrite bool_decide_eq_false_2 by (by intros []). cbn [negb].
      split; [|by left]. split; [|done].
      intros _. right. split; [done|]. by intros d.
Qed.

(** *** Entries after the one that claims a group *)

(** X15: once an entry of the [To] map whose pattern matches a group has
    been processed, the entries enumerated after it do not change that
    group: its weight, members and priority are the same whatever
    follows. *)
Theorem applyLocalityWeight_later_entries locality la rulesBefore from pre
    pattern weight post post' rulesAfter j :
  let result to :=
    Endpoints
      (applyLocalityWeight locality la
         (Some (rulesBefore ++ Some (v1alpha3.Distribute.mk from to)
                :: rulesAfter))) in
  Forall (λ r, ruleMatches locality r = false) rulesBefore →
  LocalityMatch (Some locality) from = true →
  matchesTo pattern (Endpoints la) j = true →
  result (pre ++ (pattern, weight) :: post) !! j
  = result (pre ++ (pattern, weight) :: post') !! j.
Proof.
  intros result Hbefore Hfrom Hmatch. unfold result.
  rewrite !applyLocalityWeight_matched by done.
  cbn [v1alpha3.Distribute.To].
  set (eps := Endpoints la) in *.
  assert (Hstable : ∀ rest,
            distributeTo (pre ++ (pattern, weight) :: rest) eps !! j
            = (foldl applyTo (allIndices eps, eps)
                 (pre ++ [(pattern, weight)])).2 !! j).
  { intros rest. unfold distributeTo.
    rewrite (cons_middle (pattern, weight) pre rest), app_assoc, foldl_app.
    destruct (foldl_applyTo_inv (allIndices eps, eps)
                (pre ++ [(pattern, weight)])) as [I1 _].
    set (st := foldl applyTo (allIndices eps, eps)
                 (pre ++ [(pattern, weight)])) in *.
    assert (Hout : j ∉ st.1).
    { intros Hj. apply I1 in Hj as [_ Hnone].
      specialize (Hnone pattern weight). cbn [snd] in Hnone.
      rewrite Hnone in Hmatch; [done|].
      apply elem_of_app. right. by left. }
    destruct (foldl_applyTo_inv st rest) as [F1 F2].
    rewrite clearMisMatched_lookup, decide_False.
    - apply F2. by left.
    - intros Hj. by apply F1 in Hj as [? _]. }
  by rewrite !Hstable.
Qed.

End loadbalancer.

(** ** The statements at the sample inputs *)

Lemma specLbPriority_range proxy ep : 0 ≤ specLbPriority proxy ep ≤ 3.
Proof. unfold specLbPriority. repeat case_decide; lia. Qed.

Lemma GetLocalityLbSetting_sample :
  GetLocalityLbSetting
    (Some (v1alpha3.mkSetting None sample.toWest None))
    (Some (v1alpha3.mkSetting (Some sample.rules) [] (Some true)))
  = Some (v1alpha3.mkSetting (Some sample.rules) [] (Some true)).
Proof. reflexivity. Qed.

Lemma applyLocalityFailover_compaction_witness :
  Endpoints sample.regions ≠ [] ∧
  ∀ p,
    (∃ ep',
       ep' ∈ Endpoints (applyLocalityFailover specLbPriority sample.proxy
                          sample.regions sample.toWest)
       ∧ Priority ep' = p)
    ↔ 0 ≤ p ≤ Z.of_nat (size (tiers specLbPriority sample.proxy sample.toWest
                                (Endpoints sample.regions))) - 1.
Proof.
  assert (Hne : Endpoints sample.regions ≠ []) by discriminate.
  split; [exact Hne|].
  exact (proj1 (proj2 (applyLocalityFailover_compaction specLbPriority
                         specLbPriority_range sample.proxy sample.toWest
                         sample.regions Hne))).
Defined.

Lemma tier_escalation_witness :
  let ep := sample.group "eu-central" "a" (Some 2) in
  Endpoints sample.regions !! 3%nat = Some ep ∧
  specLbPriority (Some sample.proxy) (Locality ep) = 3 ∧
  tier specLbPriority sample.proxy sample.toWest ep = 4 ∧
  Priority <$> (firstPass specLbPriority sample.proxy sample.toWest
                  (Endpoints sample.regions)).1 !! 3%nat
  = Some (tier specLbPriority sample.proxy sample.toWest ep).
Proof.
  intros ep.
  destruct (tier_escalation specLbPriority sample.proxy sample.toWest
              (Endpoints sample.regions) 3 ep eq_refl eq_refl)
    as (Hiff & _ & Hstored).
  split; [reflexivity|]. split; [reflexivity|]. split; [|exact Hstored].
  apply Hiff.
  exists [v1alpha3.Failover.mk "eu-central" "us-east"],
         (v1alpha3.Failover.mk "us-east" "us-west"),
         [v1alpha3.Failover.mk "us-east" "eu-central"].
  split; [reflexivity|]. split; [|split; [reflexivity|]].
  - constructor; [discriminate|constructor].
  - intros l [= <-]. discriminate.
Defined.

Lemma applyLocalityWeight_first_match_witness :
  let pre :=
    [None;
     Some (v1alpha3.Distribute.mk "us-west" [("us-west"%string, 100)])] in
  let s :=
    v1alpha3.Distribute.mk "us-east/a"
      [("us-east/a"%string, 80); ("us-west"%string, 20)] in
  Forall (λ r, ruleMatches specLocalityMatch sample.proxy r = false) pre ∧
  specLocalityMatch (Some sample.proxy) (v1alpha3.Distribute.From s) = true ∧
  applyLocalityWeight specLocalityMatch nonfinite_zero sample.proxy
    sample.regions (Some sample.rules)
  = setEndpoints
      (distributeTo specLocalityMatch nonfinite_zero (v1alpha3.Distribute.To s)
         (Endpoints sample.regions))
      sample.regions ∧
  applyLocalityWeight specLocalityMatch nonfinite_zero sample.proxy
    sample.regions (Some pre)
  = sample.regions.
Proof.
  intros pre s.
  assert (Hpre : Forall (λ r, ruleMatches specLocalityMatch sample.proxy r = false) pre).
  { repeat constructor. }
  assert (Hs : specLocalityMatch (Some sample.proxy) (v1alpha3.Distribute.From s) = true)
    by reflexivity.
  destruct (applyLocalityWeight_first_match specLocalityMatch nonfinite_zero
              sample.proxy sample.regions) as [Hfirst Hnone].
  split; [exact Hpre|]. split; [exact Hs|]. split.
  - exact (Hfirst pre s
             [Some (v1alpha3.Distribute.mk "us-east" [("eu-central"%string, 100)])]
             Hpre Hs).
  - exact (Hnone pre Hpre).
Defined.

Lemma applyLocalityWeight_clears_unmatched_witness :
  let pre :=
    [None;
     Some (v1alpha3.Distribute.mk "us-west" [("us-west"%string, 100)])] in
  let s :=
    v1alpha3.Distribute.mk "us-east/a"
      [("us-east/a"%string, 80); ("us-west"%string, 20)] in
  let ep := sample.group "us-east" "b" (Some 3) in
  Forall (λ r, ruleMatches specLocalityMatch sample.proxy r = false) pre ∧
  specLocalityMatch (Some sample.proxy) (v1alpha3.Distribute.From s) = true ∧
  Endpoints sample.regions !! 1%nat = Some ep ∧
  (∀ p w, (p, w) ∈ v1alpha3.Distribute.To s →
     specLocalityMatch (Locality ep) p = false) ∧
  Endpoints (applyLocalityWeight specLocalityMatch nonfinite_zero sample.proxy
               sample.regions (Some sample.rules)) !! 1%nat
  = Some (clearLbEndpoints ep).
Proof.
  intros pre s ep.
  assert (Hpre : Forall (λ r, ruleMatches specLocalityMatch sample.proxy r = false) pre).
  { repeat constructor. }
  assert (Hs : specLocalityMatch (Some sample.proxy) (v1alpha3.Distribute.From s) = true)
    by reflexivity.
  assert (Hno : ∀ p w, (p, w) ∈ v1alpha3.Distribute.To s →
                  specLocalityMatch (Locality ep) p = false).
  { intros p w Hin. simpl in Hin.
    apply elem_of_cons in Hin as [[= -> ->]|Hin]; [reflexivity|].
    apply elem_of_cons in Hin as [[= -> ->]|Hin]; [reflexivity|].
    by apply elem_of_nil in Hin. }
  destruct (applyLocalityWeight_clears_unmatched specLocalityMatch
              nonfinite_zero sample.proxy sample.regions pre s
              [Some (v1alpha3.Distribute.mk "us-east" [("eu-central"%string, 100)])]
              Hpre Hs) as (_ & _ & Hclear).
  split; [exact Hpre|]. split; [exact Hs|]. split; [reflexivity|].
  split; [exact Hno|].
  exact (proj1 (Hclear 1%nat ep eq_refl Hno)).
Defined.

Lemma applyLocalityWeight_zero_total_witness :
  let la := mkAssignment "outbound|80||svc" sample.weightless in
  let to := [("us-east"%string, 50); ("us-west"%string, 50)] in
  let mis := allIndices sample.weightless in
  weightsInRange sample.weightless ∧
  claimedTotal specLocalityMatch "us-east" mis sample.weightless = 0 ∧
  (∀ j ep, sample.weightless !! j = Some ep →
     j ∈ claimedIndices specLocalityMatch "us-east" mis sample.weightless →
     Endpoints
       (applyLocalityWeight specLocalityMatch nonfinite_zero sample.proxy la
          (Some [Some (v1alpha3.Distribute.mk "us-east" to)])) !! j
     = Some ep) ∧
  LoadBalancingWeight
    <$> Endpoints
          (applyLocalityWeight specLocalityMatch nonfinite_zero sample.proxy la
             (Some [Some (v1alpha3.Distribute.mk "us-east" to)]))
  = [Some 0; Some 0; Some 50].
Proof.
  intros la to mis.
  assert (Hwf : weightsInRange sample.weightless).
  { intros [|[|[|k]]] ep Hk; simpl in Hk; try discriminate;
      injection Hk as <-;
      cbv [originalWeight LoadBalancingWeight sample.group]; lia. }
  assert (Hsum : claimedTotal specLocalityMatch "us-east" mis sample.weightless = 0)
    by (vm_compute; reflexivity).
  split; [exact Hwf|]. split; [exact Hsum|].
  split; [|vm_compute; reflexivity].
  exact (proj2 (proj2 (proj2
           (applyLocalityWeight_zero_total specLocalityMatch nonfinite_zero
              sample.proxy la [] "us-east" [] "us-east" 50
              [("us-west"%string, 50)] [] (Forall_nil_2 _) eq_refl
              Hwf Hsum)))).
Defined.

Lemma applyLocalityWeight_weight_witness :
  let eps := Endpoints sample.regions in
  let ep := sample.group "us-east" "b" (Some 3) in
  let rule :=
    v1alpha3.Distribute.mk "us-east"
      [("us-east"%string, 10); ("us-west"%string, 20)] in
  specLocalityMatch (Some sample.proxy) "us-east" = true ∧
  eps !! 1%nat = Some ep ∧
  isClaimed specLocalityMatch "us-east" (allIndices eps) eps 1 = true ∧
  claimedTotal specLocalityMatch "us-east" (allIndices eps) eps = 4 ∧
  originalWeight ep * 10 = 30 ∧
  LoadBalancingWeight
    <$> Endpoints
          (applyLocalityWeight specLocalityMatch nonfinite_zero sample.proxy
             sample.regions (Some [None; Some rule])) !! 1%nat
  = Some (Some 8).
Proof.
  intros eps ep rule.
  assert (Hclaimed : isClaimed specLocalityMatch "us-east" (allIndices eps) eps 1 = true)
    by (vm_compute; reflexivity).
  assert (Htotal : claimedTotal specLocalityMatch "us-east" (allIndices eps) eps = 4)
    by (vm_compute; reflexivity).
  assert (Hbefore : Forall (λ r, ruleMatches specLocalityMatch sample.proxy r = false)
                      [None]).
  { repeat constructor. }
  split; [reflexivity|].
  split; [reflexivity|]. split; [exact Hclaimed|]. split; [exact Htotal|].
  split; [reflexivity|].
  destruct (applyLocalityWeight_weight specLocalityMatch nonfinite_zero
              sample.proxy sample.regions [None] "us-east" [] "us-east" 10
              [("us-west"%string, 20)] [] 1 ep Hbefore eq_refl eq_refl Hclaimed)
    as (_ & Hres & _).
  - cbv [ep originalWeight LoadBalancingWeight sample.group]. lia.
  - lia.
  - cbv [ep originalWeight LoadBalancingWeight sample.group]. lia.
  - cbn [foldl fst]. fold eps. rewrite Htotal. lia.
  - etrans; [exact Hres|]. cbn [foldl fst]. fold eps. rewrite Htotal.
    reflexivity.
Defined.

(** C2 at a weight that does not fit: the product [65536 * 65537] wraps
    around to [65536], and the group gets weight 1 where the quotient
    rounded up is 65537. *)
Lemma applyLocalityWeight_weight_overflow :
  let eps := Endpoints sample.heavy in
  let ep := sample.group "us-east" "a" (Some 65536) in
  eps !! 0%nat = Some ep ∧
  isClaimed specLocalityMatch "us-east" (allIndices eps) eps 0 = true ∧
  claimedTotal specLocalityMatch "us-east" (allIndices eps) eps = 65536 ∧
  ceiling (originalWeight ep * 65537) 65536 = 65537 ∧
  LoadBalancingWeight
    <$> Endpoints (applyLocalityWeight specLocalityMatch nonfinite_zero
                     sample.proxy sample.heavy
                     (Some [Some (v1alpha3.Distribute.mk "us-east"
                                    [("us-east"%string, 65537)])])) !! 0%nat
  = Some (Some 1) ∧
  LoadBalancingWeight
    <$> Endpoints (applyLocalityWeight specLocalityMatch nonfinite_zero
                     sample.proxy sample.heavy
                     (Some [Some (v1alpha3.Distribute.mk "us-east"
                                    [("us-east"%string, 65537)])])) !! 0%nat
  ≠ Some (Some (ceiling (originalWeight ep * 65537)
                  (claimedTotal specLocalityMatch "us-east"
                     (allIndices eps) eps))).
Proof.
  intros eps ep.
  assert (Hres : LoadBalancingWeight
    <$> Endpoints (applyLocalityWeight specLocalityMatch nonfinite_zero
                     sample.proxy sample.heavy
                     (Some [Some (v1alpha3.Distribute.mk "us-east"
                                    [("us-east"%string, 65537)])])) !! 0%nat
    = Some (Some 1)) by (vm_compute; reflexivity).
  repeat split; try (vm_compute; reflexivity).
  rewrite Hres. vm_compute. discriminate.
Qed.

Lemma applyLocalityWeight_order_witness :
  let pre :=
    [None;
     Some (v1alpha3.Distribute.mk "us-west" [("us-west"%string, 100)])] in
  let post :=
    [Some (v1alpha3.Distribute.mk "us-east" [("eu-central"%string, 100)])] in
  let to := [("us-east/a"%string, 80); ("us-west"%string, 20)] in
  let to' := [("us-west"%string, 20); ("us-east/a"%string, 80)] in
  nonOverlapping specLocalityMatch (Endpoints sample.regions) to ∧
  to ≡ₚ to' ∧
  Forall (λ r, ruleMatches specLocalityMatch sample.proxy r = false) pre ∧
  specLocalityMatch (Some sample.proxy) "us-east/a" = true ∧
  applyLocalityWeight specLocalityMatch nonfinite_zero sample.proxy
    sample.regions (Some (pre ++ Some (v1alpha3.Distribute.mk "us-east/a" to) :: post))
  = applyLocalityWeight specLocalityMatch nonfinite_zero sample.proxy
      sample.regions (Some (pre ++ Some (v1alpha3.Distribute.mk "us-east/a" to') :: post)).
Proof.
  intros pre post to to'.
  assert (Hno : nonOverlapping specLocalityMatch (Endpoints sample.regions) to).
  { split.
    - apply (bool_decide_unpack _). vm_compute. exact I.
    - intros p p' j Hp Hp' Hm Hm'. simpl in Hp, Hp'.
      assert (Hj : (j < 5)%nat).
      { destruct (decide (j < 5)%nat); [done|].
        unfold matchesTo in Hm. rewrite lookup_ge_None_2 in Hm; [done|].
        simpl. lia. }
      apply elem_of_cons in Hp as [->|Hp];
        [|apply elem_of_cons in Hp as [->|Hp]; [|by apply elem_of_nil in Hp]];
      (apply elem_of_cons in Hp' as [->|Hp'];
        [|apply elem_of_cons in Hp' as [->|Hp']; [|by apply elem_of_nil in Hp']]);
      try reflexivity;
      destruct j as [|[|[|[|[|j]]]]]; try lia;
      vm_compute in Hm; vm_compute in Hm'; discriminate. }
  assert (Hperm : to ≡ₚ to') by apply perm_swap.
  assert (Hpre : Forall (λ r, ruleMatches specLocalityMatch sample.proxy r = false) pre).
  { repeat constructor. }
  assert (Hfrom : specLocalityMatch (Some sample.proxy) "us-east/a" = true)
    by reflexivity.
  split; [exact Hno|]. split; [exact Hperm|]. split; [exact Hpre|].
  split; [exact Hfrom|].
  exact (applyLocalityWeight_order specLocalityMatch nonfinite_zero sample.proxy
           sample.regions pre "us-east/a" to to' post Hno Hperm Hpre Hfrom).
Defined.

(** C5 at two patterns that overlap: the pattern that is enumerated
    first claims the group in zone [a]. *)
Lemma applyLocalityWeight_order_overlap :
  sample.overlapping ≡ₚ rev sample.overlapping ∧
  map LoadBalancingWeight
    (Endpoints (applyLocalityWeight specLocalityMatch nonfinite_zero
                  sample.proxy sample.zones
                  (Some [Some (v1alpha3.Distribute.mk "us-east"
                                 sample.overlapping)])))
  = [Some 5; Some 5] ∧
  map LoadBalancingWeight
    (Endpoints (applyLocalityWeight specLocalityMatch nonfinite_zero
                  sample.proxy sample.zones
                  (Some [Some (v1alpha3.Distribute.mk "us-east"
                                 (rev sample.overlapping))])))
  = [Some 90; Some 10] ∧
  applyLocalityWeight specLocalityMatch nonfinite_zero sample.proxy
    sample.zones
    (Some [Some (v1alpha3.Distribute.mk "us-east" sample.overlapping)])
  ≠ applyLocalityWeight specLocalityMatch nonfinite_zero sample.proxy
      sample.zones
      (Some [Some (v1alpha3.Distribute.mk "us-east" (rev sample.overlapping))]).
Proof.
  split; [apply perm_swap|].
  split; [vm_compute; reflexivity|].
  split; [vm_compute; reflexivity|].
  intros Heq. vm_compute in Heq. discriminate.
Qed.

Lemma ApplyLocalityLBSetting_nil_policy_witness :
  (∀ proxy ep, 0 ≤ specLbPriority proxy ep ≤ 3) ∧
  ApplyLocalityLBSetting specLocalityMatch specLbPriority nonfinite_zero
    (Some sample.proxy) (Some sample.regions) None true
  = Some (applyLocalityFailover specLbPriority sample.proxy sample.regions []) ∧
  Priority <$> Endpoints (applyLocalityFailover specLbPriority sample.proxy
                            sample.regions [])
  = [0; 1; 2; 2; 2].
Proof.
  split; [exact specLbPriority_range|].
  split; [|vm_compute; reflexivity].
  exact (proj1 (ApplyLocalityLBSetting_nil_policy specLocalityMatch
                  specLbPriority nonfinite_zero specLbPriority_range
                  sample.proxy sample.regions)).
Defined.

Lemma applyLocalityFailover_idempotent_witness :
  (∀ proxy ep, 0 ≤ specLbPriority proxy ep ≤ 3) ∧
  applyLocalityFailover specLbPriority sample.proxy
    (applyLocalityFailover specLbPriority sample.proxy sample.regions
       sample.toWest)
    sample.toWest
  = applyLocalityFailover specLbPriority sample.proxy sample.regions
      sample.toWest.
Proof.
  split; [exact specLbPriority_range|].
  exact (proj2 (applyLocalityFailover_idempotent specLbPriority
                  specLbPriority_range sample.proxy sample.toWest
                  sample.regions)).
Defined.

Lemma applyLocalityFailover_order_witness :
  let ep1 := sample.group "us-east" "b" (Some 3) in
  let ep2 := sample.group "eu-central" "a" (Some 2) in
  Endpoints sample.regions !! 1%nat = Some ep1 ∧
  Endpoints sample.regions !! 3%nat = Some ep2 ∧
  ∃ p1 p2,
    Priority <$> Endpoints (applyLocalityFailover specLbPriority sample.proxy
                              sample.regions sample.toWest) !! 1%nat
    = Some p1 ∧
    Priority <$> Endpoints (applyLocalityFailover specLbPriority sample.proxy
                              sample.regions sample.toWest) !! 3%nat
    = Some p2 ∧
    (tier specLbPriority sample.proxy sample.toWest ep1
     < tier specLbPriority sample.proxy sample.toWest ep2 ↔ p1 < p2) ∧
    0 ≤ p1 ≤ tier specLbPriority sample.proxy sample.toWest ep1 ∧
    tier specLbPriority sample.proxy sample.toWest ep1 ≤ 4.
Proof.
  intros ep1 ep2. split; [reflexivity|]. split; [reflexivity|].
  exact (applyLocalityFailover_order specLbPriority specLbPriority_range
           sample.proxy sample.toWest sample.regions 1 3 ep1 ep2
           eq_refl eq_refl).
Defined.

Lemma applyLocalityFailover_first_setting_witness :
  let pre := [v1alpha3.Failover.mk "eu-central" "us-east"] in
  let fs := v1alpha3.Failover.mk "us-east" "us-west" in
  let post := [v1alpha3.Failover.mk "us-east" "eu-central"] in
  Forall (λ f, v1alpha3.Failover.From f ≠ Region sample.proxy) pre ∧
  v1alpha3.Failover.From fs = Region sample.proxy ∧
  applyLocalityFailover specLbPriority sample.proxy sample.regions
    sample.toWest
  = applyLocalityFailover specLbPriority sample.proxy sample.regions [fs] ∧
  applyLocalityFailover specLbPriority sample.proxy sample.regions pre
  = applyLocalityFailover specLbPriority sample.proxy sample.regions [].
Proof.
  intros pre fs post.
  assert (Hpre : Forall (λ f, v1alpha3.Failover.From f ≠ Region sample.proxy) pre).
  { constructor; [discriminate|constructor]. }
  destruct (applyLocalityFailover_first_setting specLbPriority sample.proxy
              sample.regions) as [Hfirst Hnone].
  split; [exact Hpre|]. split; [reflexivity|]. split.
  - exact (Hfirst pre fs post Hpre eq_refl).
  - exact (Hnone pre Hpre).
Defined.

Lemma applyLocalityWeight_members_witness :
  let pre :=
    [None;
     Some (v1alpha3.Distribute.mk "us-west" [("us-west"%string, 100)])] in
  let s :=
    v1alpha3.Distribute.mk "us-east/a"
      [("us-east/a"%string, 80); ("us-west"%string, 20)] in
  let ep := sample.group "us-west" "a" None in
  Forall (λ r, ruleMatches specLocalityMatch sample.proxy r = false) pre ∧
  specLocalityMatch (Some sample.proxy) (v1alpha3.Distribute.From s) = true ∧
  Endpoints sample.regions !! 2%nat = Some ep ∧
  LbEndpoints
    <$> Endpoints (applyLocalityWeight specLocalityMatch nonfinite_zero
                     sample.proxy sample.regions (Some sample.rules)) !! 2%nat
  = Some (LbEndpoints ep).
Proof.
  intros pre s ep.
  assert (Hpre : Forall (λ r, ruleMatches specLocalityMatch sample.proxy r = false) pre).
  { repeat constructor. }
  assert (Hs : specLocalityMatch (Some sample.proxy) (v1alpha3.Distribute.From s) = true)
    by reflexivity.
  split; [exact Hpre|]. split; [exact Hs|]. split; [reflexivity|].
  etrans;
    [exact (proj1 (applyLocalityWeight_members specLocalityMatch nonfinite_zero
                     sample.proxy sample.regions pre s
                     [Some (v1alpha3.Distribute.mk "us-east"
                              [("eu-central"%string, 100)])]
                     2 ep Hpre Hs eq_refl))|].
  reflexivity.
Defined.

Lemma applyLocalityWeight_members_order_witness :
  sample.overlapping ≡ₚ rev sample.overlapping ∧
  Forall (λ r, ruleMatches specLocalityMatch sample.proxy r = false) [] ∧
  specLocalityMatch (Some sample.proxy) "us-east" = true ∧
  LbEndpoints
    <$> Endpoints (applyLocalityWeight specLocalityMatch nonfinite_zero
                     sample.proxy sample.zones
                     (Some [Some (v1alpha3.Distribute.mk "us-east"
                                    sample.overlapping)]))
  = LbEndpoints
      <$> Endpoints (applyLocalityWeight specLocalityMatch nonfinite_zero
                       sample.proxy sample.zones
                       (Some [Some (v1alpha3.Distribute.mk "us-east"
                                      (rev sample.overlapping))])).
Proof.
  assert (Hperm : sample.overlapping ≡ₚ rev sample.overlapping)
    by apply perm_swap.
  split; [exact Hperm|]. split; [constructor|]. split; [reflexivity|].
  exact (applyLocalityWeight_members_order specLocalityMatch nonfinite_zero
           sample.proxy sample.zones [] "us-east" sample.overlapping
           (rev sample.overlapping) [] Hperm (Forall_nil_2 _) eq_refl).
Defined.

Lemma ApplyLocalityLBSetting_no_matching_rule_witness :
  let rules :=
    [None;
     Some (v1alpha3.Distribute.mk "us-west" [("us-west"%string, 100)])] in
  Forall (λ r, ruleMatches specLocalityMatch sample.proxy r = false) rules ∧
  ApplyLocalityLBSetting specLocalityMatch specLbPriority nonfinite_zero
    (Some sample.proxy) (Some sample.regions)
    (Some (v1alpha3.mkSetting (Some rules) sample.toWest None)) true
  = Some sample.regions.
Proof.
  intros rules.
  assert (Hnone : Forall (λ r, ruleMatches specLocalityMatch sample.proxy r = false) rules).
  { repeat constructor. }
  split; [exact Hnone|].
  exact (ApplyLocalityLBSetting_no_matching_rule specLocalityMatch
           specLbPriority nonfinite_zero sample.proxy sample.regions rules
           sample.toWest None true Hnone).
Defined.

Lemma sample_regions_in_range : weightsInRange (Endpoints sample.regions).
Proof.
  intros [|[|[|[|[|k]]]]] ep Hk; simpl in Hk; try discriminate;
    injection Hk as <-;
    cbv [originalWeight LoadBalancingWeight sample.group]; lia.
Defined.

Lemma applyLocalityWeight_weight_sum_witness :
  let eps := Endpoints sample.regions in
  let rule :=
    v1alpha3.Distribute.mk "us-east"
      [("us-east"%string, 10); ("us-west"%string, 20)] in
  let claimed := claimedIndices specLocalityMatch "us-east" (allIndices eps) eps in
  let result :=
    Endpoints (applyLocalityWeight specLocalityMatch nonfinite_zero
                 sample.proxy sample.regions (Some [None; Some rule])) in
  weightsInRange eps ∧
  claimed = [0%nat; 1%nat] ∧
  claimedTotal specLocalityMatch "us-east" (allIndices eps) eps = 4 ∧
  10 ≤ sumZ (groupWeight result <$> claimed) < 10 + Z.of_nat (length claimed).
Proof.
  intros eps rule claimed result.
  assert (Hclaimed : claimed = [0%nat; 1%nat]) by (vm_compute; reflexivity).
  assert (Htotal : claimedTotal specLocalityMatch "us-east" (allIndices eps) eps = 4)
    by (vm_compute; reflexivity).
  split; [exact sample_regions_in_range|]. split; [exact Hclaimed|].
  split; [exact Htotal|].
  apply (applyLocalityWeight_weight_sum specLocalityMatch nonfinite_zero
           sample.proxy sample.regions [None] "us-east" [] "us-east" 10
           [("us-west"%string, 20)] []).
  - repeat constructor.
  - reflexivity.
  - exact sample_regions_in_range.
  - lia.
  - cbn [foldl fst]. fold eps. rewrite Htotal. lia.
  - cbn [foldl fst]. fold eps claimed. rewrite Hclaimed. intros j Hj.
    apply elem_of_cons in Hj as [->|Hj];
      [|apply elem_of_cons in Hj as [->|Hj]; [|by apply elem_of_nil in Hj]];
      vm_compute; reflexivity.
Defined.

Lemma applyLocalityWeight_weight_monotone_witness :
  let eps := Endpoints sample.regions in
  let rule :=
    v1alpha3.Distribute.mk "us-east"
      [("us-east"%string, 10); ("us-west"%string, 20)] in
  let result :=
    Endpoints (applyLocalityWeight specLocalityMatch nonfinite_zero
                 sample.proxy sample.regions (Some [None; Some rule])) in
  weightsInRange eps ∧
  isClaimed specLocalityMatch "us-east" (allIndices eps) eps 0 = true ∧
  isClaimed specLocalityMatch "us-east" (allIndices eps) eps 1 = true ∧
  groupWeight eps 0 ≤ groupWeight eps 1 ∧
  groupWeight result 0 ≤ groupWeight result 1.
Proof.
  intros eps rule result.
  assert (H0 : isClaimed specLocalityMatch "us-east" (allIndices eps) eps 0 = true)
    by (vm_compute; reflexivity).
  assert (H1 : isClaimed specLocalityMatch "us-east" (allIndices eps) eps 1 = true)
    by (vm_compute; reflexivity).
  assert (Hle : groupWeight eps 0 ≤ groupWeight eps 1)
    by (vm_compute; discriminate).
  split; [exact sample_regions_in_range|]. split; [exact H0|].
  split; [exact H1|]. split; [exact Hle|].
  apply (applyLocalityWeight_weight_monotone specLocalityMatch nonfinite_zero
           sample.proxy sample.regions [None] "us-east" [] "us-east" 10
           [("us-west"%string, 20)] [] 0 1).
  - repeat constructor.
  - reflexivity.
  - exact sample_regions_in_range.
  - lia.
  - cbn [foldl fst]. fold eps.
    assert (claimedTotal specLocalityMatch "us-east" (allIndices eps) eps = 4)
      as -> by (vm_compute; reflexivity).
    lia.
  - exact H0.
  - exact H1.
  - exact Hle.
  - vm_compute. reflexivity.
Defined.

Lemma internal_map_order_witness :
  let destLocMap : gmap nat Z := {[ 0%nat := 1; 1%nat := 3 ]} in
  let misMatched : gset nat := {[ 2%nat; 4%nat ]} in
  let priorityMap : gmap Z (list nat) :=
    {[ 0 := [0%nat]; 2 := [1%nat]; 4 := [2%nat; 3%nat] ]} in
  let eps := Endpoints sample.regions in
  reverse (map_to_list destLocMap) ≡ₚ map_to_list destLocMap ∧
  reverse (elements misMatched) ≡ₚ elements misMatched ∧
  reverse (map_to_list priorityMap).*1 ≡ₚ (map_to_list priorityMap).*1 ∧
  foldl (λ e x, assignWeight nonfinite_zero 10 4 x e) eps
    (reverse (map_to_list destLocMap))
  = assignWeights nonfinite_zero 10 4 destLocMap eps ∧
  foldl (λ e i, alter clearLbEndpoints i e) eps (reverse (elements misMatched))
  = clearMisMatched misMatched eps ∧
  merge_sort Z.le (reverse (map_to_list priorityMap).*1)
  = sortedPriorities priorityMap.
Proof.
  intros destLocMap misMatched priorityMap eps.
  split; [apply reverse_Permutation|].
  split; [apply reverse_Permutation|].
  split; [apply reverse_Permutation|].
  exact (internal_map_order nonfinite_zero 10 4 destLocMap misMatched
           priorityMap eps _ _ _
           (reverse_Permutation _) (reverse_Permutation _)
           (reverse_Permutation _)).
Defined.

Lemma applyLocalityWeight_later_entries_witness :
  let rule to := v1alpha3.Distribute.mk "us-east" to in
  Forall (λ r, ruleMatches specLocalityMatch sample.proxy r = false) [None] ∧
  specLocalityMatch (Some sample.proxy) "us-east" = true ∧
  matchesTo specLocalityMatch "us-east" (Endpoints sample.zones) 0 = true ∧
  Endpoints
    (applyLocalityWeight specLocalityMatch nonfinite_zero sample.proxy
       sample.zones
       (Some [None; Some (rule [("us-east"%string, 10);
                                ("us-east/a"%string, 90)])])) !! 0%nat
  = Endpoints
      (applyLocalityWeight specLocalityMatch nonfinite_zero sample.proxy
         sample.zones
         (Some [None; Some (rule [("us-east"%string, 10)])])) !! 0%nat.
Proof.
  intros rule.
  assert (Hbefore : Forall (λ r, ruleMatches specLocalityMatch sample.proxy r = false)
                      [None]).
  { repeat constructor. }
  split; [exact Hbefore|]. split; [reflexivity|]. split; [reflexivity|].
  exact (applyLocalityWeight_later_entries specLocalityMatch nonfinite_zero
           sample.proxy sample.zones [None] "us-east" [] "us-east" 10
           [("us-east/a"%string, 90)] [] [] 0 Hbefore eq_refl eq_refl).
Defined.
